(** * frampton-core: the Task abstraction and the Signal dataflow engine

    Two parts of the library are embedded here.

    - [Task] (part I) follows the source of the Task class: a task wraps a
      computation that reports through a record of sinks; [run] hands the
      computation to the host scheduler, [filter] wraps the sinks.
    - [Signal] (part II) follows the design document of the dataflow
      engine: an arena of nodes, depth-first push propagation, the
      combinators, observers and the debounce timer.

    - Part III holds the other methods of the Task class, over tasks typed
      by the values they resolve with.

    Parts IV and V state and prove the properties of the two: what [run]
    and [filter] do with the sinks, and what a push does to filter, fold,
    dropRepeats, merge and debounce children and to onChange observers.
    Part VI has the laws of the other methods of Task, part VII what a
    push does to map and filter children and to onValue and onNext
    observers. *)

From Stdlib Require Import ZArith String.
From stdpp Require Import base option list relations strings.

Set Default Proof Using "Type".
Local Open Scope nat_scope.

(* ===================================================================== *)
(** * Part I: Task                                                        *)
(* ===================================================================== *)

Module Task.

(** The argument of a [reject] sink.  TypeScript declares it as
    [err?: E]; at run time it is any JavaScript value: an error of the
    task's own ([NotNull e]) or the literal [null].  A value that is thrown
    and caught ranges over the same set, since [run] passes it to
    [reject] as it is. *)
Inductive Nullable (A : Type) : Type :=
  | Null
  | NotNull (a : A).
Arguments Null {A}.
Arguments NotNull {A} a.

Section WithTypes.

Context {E V P : Type}.

Definition Reason : Type := Nullable E.

(** What the host can see of a run: the calls that reach the sinks of the
    caller. *)
Inductive Obs : Type :=
  | Rejected (err : Reason)
  | Resolved (val : V)
  | Progressed (prg : P).

(** ** Effects

    Every function of the class returns [void]; what it does is a tree
    of effects.  [Immediate fn] is the call [immediate(fn)], [TryCatch] is
    the [try { .. } catch (e) { .. }] statement, [Seq] is statement
    sequencing, [Emit] is an effect a caller's callback performs on the
    host. *)
Inductive Act : Type :=
  | Skip
  | Throw (e : Reason)
  | Emit (o : Obs)
  | Immediate (fn : Act)
  | Seq (a b : Act)
  | TryCatch (body : Act) (handler : Reason -> Act).

(** ** The host: a trace, the scheduler's queue, uncaught exceptions *)
Record World : Type := mkWorld {
  trace : list Obs;
  queue : list Act;
  uncaught : list Reason
}.

Definition idle : World := mkWorld [] [] [].

Inductive Outcome : Type :=
  | Normal
  | Threw (e : Reason).

(** Modelled from the spec: [immediate], the scheduling primitive of the
    utilities (not part of the sources at hand).  It "defers the start to
    the next turn of the event loop": the callback is appended to the
    scheduler's queue and the call returns. *)
Definition immediate (fn : Act) (w : World) : World :=
  mkWorld (trace w) (queue w ++ [fn]) (uncaught w).

Definition emit (o : Obs) (w : World) : World :=
  mkWorld (trace w ++ [o]) (queue w) (uncaught w).

(** Synchronous execution of one call, up to the point where it returns or
    throws. *)
Fixpoint exec (a : Act) (w : World) : Outcome * World :=
  match a with
  | Skip => (Normal, w)
  | Throw e => (Threw e, w)
  | Emit o => (Normal, emit o w)
  | Immediate fn => (Normal, immediate fn w)
  | Seq a b =>
      match exec a w with
      | (Normal, w') => exec b w'
      | (Threw e, w') => (Threw e, w')
      end
  | TryCatch body handler =>
      match exec body w with
      | (Normal, w') => (Normal, w')
      | (Threw e, w') => exec (handler e) w'
      end
  end.

(** One turn of the event loop takes the oldest callback off the queue and
    runs it; an exception that leaves the callback reaches the scheduler
    and is recorded as uncaught. *)
Definition turn (fn : Act) (w : World) : World :=
  match exec fn w with
  | (Normal, w') => w'
  | (Threw e, w') => mkWorld (trace w') (queue w') (uncaught w' ++ [e])
  end.

Fixpoint event_loop (fuel : nat) (w : World) : option World :=
  match queue w with
  | [] => Some w
  | fn :: rest =>
      match fuel with
      | O => None
      | S fuel' =>
          event_loop fuel' (turn fn (mkWorld (trace w) rest (uncaught w)))
      end
  end.

(** A script calls [a] on an idle host and lets the event loop drain. *)
Definition settle (fuel : nat) (a : Act) : option World :=
  event_loop fuel (snd (exec a idle)).

(** ** The Task class *)

Record TaskSinks : Type := mkSinks {
  reject : Reason -> Act;
  resolve : V -> Act;
  progress : option (P -> Act)
}.

Definition TaskComputation : Type := TaskSinks -> Act.

(** [TaskPredicate<T> = ((val: T) => boolean) | T]; the constructor is
    what [typeof predicate === 'function'] tests. *)
Inductive TaskPredicate : Type :=
  | PredFn (f : V -> bool)
  | PredValue (v : V).

Record Task : Type := mkTask { _fn : TaskComputation }.

(** [isEqual], the curried equality test of the utilities, is a
    parameter of the class. *)
Variable isEqual : V -> V -> bool.

Definition run (t : Task) (sinks : TaskSinks) : Act :=
  Immediate
    (TryCatch (_fn t sinks) (fun e => reject sinks e)).

(** [of] (the name is reserved in Rocq, hence the underscore). *)
Definition of_ (val : V) : Task :=
  mkTask (fun sinks => resolve sinks val).

Definition filter (source : Task) (predicate : TaskPredicate) : Task :=
  let filterFn : V -> bool :=
    match predicate with
    | PredFn f => f
    | PredValue v => isEqual v
    end in
  mkTask (fun sinks =>
    run source
      {| reject := reject sinks;
         resolve := fun val =>
           if filterFn val then resolve sinks val else reject sinks Null;
         progress := progress sinks |}).

Definition validate (source : Task) (predicate : TaskPredicate) : Task :=
  filter source predicate.

Definition create (computation : TaskComputation) : Task :=
  mkTask computation.

(** The sinks of a caller that only watches: each call is recorded on the
    host's trace. *)
Definition probe : TaskSinks :=
  {| reject := fun e => Emit (Rejected e);
     resolve := fun v => Emit (Resolved v);
     progress := Some (fun p => Emit (Progressed p)) |}.

(** The callback that [run] hands to the scheduler. *)
Definition started (t : Task) (sinks : TaskSinks) : Act :=
  TryCatch (_fn t sinks) (fun e => reject sinks e).

(** The test that [filter] applies, as its first lines compute it. *)
Definition filterFn (predicate : TaskPredicate) : V -> bool :=
  match predicate with
  | PredFn f => f
  | PredValue l => isEqual l
  end.

(** The reading of "a throwing computation rejects and does not resolve"
    for a caller that records the calls of its sinks: when the
    computation throws [x], the run rejects with [x], nothing reaches
    the scheduler, and resolve is not called. *)
Definition throw_only_rejects (t : Task) : Prop :=
  forall x w1, exec (_fn t probe) idle = (Threw x, w1) ->
  forall fuel w', settle fuel (run t probe) = Some w' ->
    Rejected x ∈ trace w'
    /\ uncaught w' = []
    /\ forall v, Resolved v ∉ trace w'.

End WithTypes.

Arguments Reason : clear implicits.
Arguments Obs : clear implicits.
Arguments Act : clear implicits.
Arguments World : clear implicits.
Arguments Outcome : clear implicits.
Arguments TaskSinks : clear implicits.
Arguments TaskComputation : clear implicits.
Arguments TaskPredicate : clear implicits.
Arguments Task : clear implicits.

(** A computation that resolves and then throws. *)
Definition resolve_then_throw : Task Z Z Z :=
  create (fun sinks => Seq (resolve sinks 1%Z) (Throw (NotNull 2%Z))).

End Task.

(* ===================================================================== *)
(** * Part II: Signal                                                     *)
(* ===================================================================== *)

(** The source of the Signal module is not among the files at hand; only
    its test suite is.  The engine below is written from the design
    document: section 3 (data model), section 4.1 (node, push, observers)
    and section 4.2 (combinators, the debounce state machine). *)

Module Signal.

Section WithValues.

Context {T : Type} `{EqDecision T}.

(** Modelled from the spec: the shared equality-test helper, "which
    performs deep/structural comparison". *)
Definition isEqual (a b : T) : bool := bool_decide (a = b).

(** Modelled from the spec: the value-or-function normalizer,
    [Predicate<T> = Literal(T) | Fn(T -> bool)], "resolved once at
    combinator-construction time into a uniform callable". *)
Inductive Predicate : Type :=
  | Literal (v : T)
  | Fn (f : T -> bool).

Definition normalize (p : Predicate) : T -> bool :=
  match p with
  | Literal v => isEqual v
  | Fn f => f
  end.

(** Modelled from the spec: "the child's registered transform", one per
    combinator of section 4.2; [Source] is a node made by [create]. *)
Inductive Transform : Type :=
  | Source
  | Map (fn : T -> T)
  | Filter (predicate : T -> bool)
  | Fold (combine : T -> T -> T)
  | DropRepeats
  | Merge
  | Debounce (delayMs : nat).

Inductive ObserverKind : Type := OnValue | OnChange | OnNext.

(** Modelled from the spec: an observer registered by [onValue],
    [onChange] or [onNext].  The function is known by a number; what it
    does is recorded. *)
Record Observer : Type := mkObserver {
  kind : ObserverKind;
  callback : nat
}.

(** Modelled from the spec: the node of section 3.  [value] and
    [hasValue] are one optional field ([None]: never pushed); [children]
    holds arena handles in insertion order; [pending] is the "single
    mutable pending-timer slot" of a debounce node: the deadline and the
    latest value, [None] when idle. *)
Record Signal : Type := mkSignal {
  value : option T;
  children : list nat;
  transform : Transform;
  observers : list Observer;
  pending : option (nat * T)
}.

(** What can be seen from outside: a value delivered to a node, an
    observer of a node called with a value. *)
Inductive Event : Type :=
  | Pushed (sig : nat) (v : T)
  | Called (sig : nat) (fn : nat) (v : T).

Definition event_node (e : Event) : nat :=
  match e with
  | Pushed sig _ => sig
  | Called sig _ _ => sig
  end.

(** Modelled from the spec: the arena of nodes ("parent storing a sequence
    of child handles"), the host clock in milliseconds and the record of
    events. *)
Record World : Type := mkWorld {
  nodes : list Signal;
  now : nat;
  log : list Event
}.

Definition empty : World := mkWorld [] 0 [].

Definition set_value (v : T) (s : Signal) : Signal :=
  mkSignal (Some v) (children s) (transform s) (observers s) (pending s).

Definition set_pending (t : option (nat * T)) (s : Signal) : Signal :=
  mkSignal (value s) (children s) (transform s) (observers s) t.

Definition add_child (c : nat) (s : Signal) : Signal :=
  mkSignal (value s) (children s ++ [c]) (transform s) (observers s)
    (pending s).

Definition add_observer (o : Observer) (s : Signal) : Signal :=
  mkSignal (value s) (children s) (transform s) (observers s ++ [o])
    (pending s).

Definition alter_node (f : Signal -> Signal) (sig : nat) (w : World) : World :=
  mkWorld (alter f sig (nodes w)) (now w) (log w).

Definition record (e : Event) (w : World) : World :=
  mkWorld (nodes w) (now w) (log w ++ [e]).

(** ** Reading *)

(** Modelled from the spec: [get()] / [value], "undefined if hasValue is
    false". *)
Definition get (sig : nat) (w : World) : option T :=
  nodes w !! sig ≫= value.

Definition timer (sig : nat) (w : World) : option (nat * T) :=
  nodes w !! sig ≫= pending.

Definition transform_of (sig : nat) (w : World) : option Transform :=
  transform <$> nodes w !! sig.

Definition pushed_to (sig : nat) (l : list Event) : list T :=
  omap (fun e =>
          match e with
          | Pushed s v => if decide (s = sig) then Some v else None
          | Called _ _ _ => None
          end) l.

Definition calls_of (sig fn : nat) (l : list Event) : list T :=
  omap (fun e =>
          match e with
          | Called s f v => if decide (s = sig /\ f = fn) then Some v else None
          | Pushed _ _ => None
          end) l.

(** ** Push and propagation *)

(** Modelled from the spec: what a push on a parent does to one child
    (section 4.2).  [push] is the push mechanism, used "recursively" into
    the child.
    - map: the child receives [fn v];
    - filter: the child receives [v] when the predicate holds, nothing
      otherwise;
    - fold: the child receives [combine currentChildValue v] (a fold child
      holds a value from its creation on, the seed);
    - dropRepeats: the child receives [v] unless it equals the last
      value delivered to the child;
    - merge: the child receives [v];
    - debounce: the pending timer is replaced by one that fires after
      [delayMs] with [v]; nothing is delivered now. *)
Definition deliver (push : World -> nat -> T -> option World)
    (w : World) (child : nat) (v : T) : option World :=
  match nodes w !! child with
  | None => Some w
  | Some c =>
      match transform c with
      | Source => Some w
      | Map fn => push w child (fn v)
      | Filter predicate => if predicate v then push w child v else Some w
      | Fold combine =>
          match value c with
          | Some acc => push w child (combine acc v)
          | None => Some w
          end
      | DropRepeats =>
          match value c with
          | Some last => if isEqual last v then Some w else push w child v
          | None => push w child v
          end
      | Merge => push w child v
      | Debounce delayMs =>
          Some (alter_node (set_pending (Some (now w + delayMs, v))) child w)
      end
  end.

(** What a child with transform [tr] and current value [cur] receives
    when its parent is pushed [v]: [None] when nothing is delivered.  Read
    off [deliver]; [deliver_reaction] in the last part relates the two. *)
Definition reaction (tr : Transform) (cur : option T) (v : T) : option T :=
  match tr with
  | Source => None
  | Map fn => Some (fn v)
  | Filter predicate => if predicate v then Some v else None
  | Fold combine =>
      match cur with
      | Some acc => Some (combine acc v)
      | None => None
      end
  | DropRepeats =>
      match cur with
      | Some last => if isEqual last v then None else Some v
      | None => Some v
      end
  | Merge => Some v
  | Debounce _ => None
  end.

Definition final (cur : option T) (outs : list T) : option T :=
  match last outs with
  | Some v => Some v
  | None => cur
  end.

(** The values a child receives while its parent is pushed [vs]. *)
Fixpoint relay (tr : Transform) (cur : option T) (vs : list T) : list T :=
  match vs with
  | [] => []
  | v :: vs' =>
      match reaction tr cur v with
      | Some v' => v' :: relay tr (Some v') vs'
      | None => relay tr cur vs'
      end
  end.

(** Modelled from the spec: propagation, "for every child in [children],
    in insertion order"; a child's whole subtree is done before the next
    sibling. *)
Fixpoint propagate (push : World -> nat -> T -> option World)
    (cs : list nat) (v : T) (w : World) : option World :=
  match cs with
  | [] => Some w
  | c :: cs' =>
      match deliver push w c v with
      | Some w' => propagate push cs' v w'
      | None => None
      end
  end.

(** Modelled from the spec: observers of a node on a push.  [onValue] and
    [onNext] observers are called with the new value; an [onChange]
    observer only when the new value is not equal to the previous one. *)
Definition announce (sig : nat) (prev : option T) (v : T) (o : Observer)
    : list Event :=
  match kind o with
  | OnChange =>
      match prev with
      | Some u => if isEqual u v then [] else [Called sig (callback o) v]
      | None => [Called sig (callback o) v]
      end
  | OnValue | OnNext => [Called sig (callback o) v]
  end.

Definition notify (sig : nat) (prev : option T) (v : T)
    (w : World) (o : Observer) : World :=
  mkWorld (nodes w) (now w) (log w ++ announce sig prev v o).

(** Modelled from the spec: [push(signal, value)] "sets signal.value =
    value, hasValue = true, then propagates".  A cycle in the graph "causes
    unbounded recursion": the recursion is bounded by [fuel], and [None]
    stands for a run that did not return.  Observers of the node are
    called in registration order once its children are done (the test of
    debounce reads a child's value inside an observer). *)
Fixpoint push_fuel (fuel : nat) (w : World) (sig : nat) (v : T)
    : option World :=
  match fuel with
  | O => None
  | S fuel' =>
      match nodes w !! sig with
      | None => None
      | Some s =>
          let w1 := record (Pushed sig v) (alter_node (set_value v) sig w) in
          match propagate (push_fuel fuel') (children s) v w1 with
          | None => None
          | Some w2 => Some (foldl (notify sig (value s) v) w2 (observers s))
          end
      end
  end.

(** Modelled from the spec: [push].  On a graph built by the combinators
    a path is shorter than the arena, so this much fuel is enough
    ([push_returns] in the last part). *)
Definition push (sig : nat) (v : T) (w : World) : option World :=
  push_fuel (length (nodes w)) w sig v.

(** ** Construction *)

(** Modelled from the spec: [create(initial?)]. *)
Definition create (initial : option T) (w : World) : World * nat :=
  (mkWorld (nodes w ++ [mkSignal initial [] Source [] None]) (now w) (log w),
   length (nodes w)).

(** Modelled from the spec: a combinator "creates a new child Signal
    wired to one or more parent Signals"; the child is appended to each
    parent's list.  [map], [filter], [fold], [dropRepeats], [merge] and
    [debounce] follow; only a fold child starts with a value. *)
Definition derive (parents : list nat) (tr : Transform) (initial : option T)
    (w : World) : World * nat :=
  let child := length (nodes w) in
  let w1 :=
    mkWorld (nodes w ++ [mkSignal initial [] tr [] None]) (now w) (log w) in
  (foldl (fun w' p => alter_node (add_child child) p w') w1 parents, child).

Definition map (sig : nat) (fn : T -> T) : World -> World * nat :=
  derive [sig] (Map fn) None.

Definition filter (sig : nat) (predicate : Predicate) : World -> World * nat :=
  derive [sig] (Filter (normalize predicate)) None.

Definition fold (sig : nat) (combine : T -> T -> T) (seed : T)
    : World -> World * nat :=
  derive [sig] (Fold combine) (Some seed).

Definition dropRepeats (sig : nat) : World -> World * nat :=
  derive [sig] DropRepeats None.

Definition merge (this other : nat) : World -> World * nat :=
  derive [this; other] Merge None.

Definition debounce (sig : nat) (delayMs : nat) : World -> World * nat :=
  derive [sig] (Debounce delayMs) None.

(** ** Observers *)

(** Modelled from the spec: registration.  [onValue] and [onChange] call
    the function at once when the node holds a value; [onNext] does not. *)
Definition register (k : ObserverKind) (sig fn : nat) (w : World) : World :=
  let w1 :=
    match k, get sig w with
    | OnValue, Some v => record (Called sig fn v) w
    | OnChange, Some v => record (Called sig fn v) w
    | _, _ => w
    end in
  alter_node (add_observer (mkObserver k fn)) sig w1.

Definition onValue : nat -> nat -> World -> World := register OnValue.
Definition onChange : nat -> nat -> World -> World := register OnChange.
Definition onNext : nat -> nat -> World -> World := register OnNext.

(** ** The host: time and timers *)

(** Modelled from the spec: the debounce state machine, "timer fires ->
    delivers latestValue to child via push, transitions to idle".  A timer
    can fire once its deadline is reached; firing an idle or early timer
    does nothing. *)
Definition fire (sig : nat) (w : World) : option World :=
  match timer sig w with
  | Some (deadline, v) =>
      if deadline <=? now w
      then push sig v (alter_node (set_pending None) sig w)
      else Some w
  | None => Some w
  end.

Definition elapse (dt : nat) (w : World) : World :=
  mkWorld (nodes w) (now w + dt) (log w).

(** Modelled from the spec: what happens to a graph over time.  The
    program pushes, time passes, the host runs a timer callback. *)
Inductive Step : Type :=
  | DoPush (sig : nat) (v : T)
  | DoElapse (dt : nat)
  | DoFire (sig : nat).

Definition step (w : World) (e : Step) : option World :=
  match e with
  | DoPush sig v => push sig v w
  | DoElapse dt => Some (elapse dt w)
  | DoFire sig => fire sig w
  end.

Fixpoint steps (es : list Step) (w : World) : option World :=
  match es with
  | [] => Some w
  | e :: es' =>
      match step w e with
      | Some w' => steps es' w'
      | None => None
      end
  end.

Definition pushes (sig : nat) (vs : list T) : list Step :=
  DoPush sig <$> vs.

Definition elapsed (es : list Step) : nat :=
  foldr (fun e n => match e with DoElapse dt => dt + n | _ => n end) 0 es.

(** A script that leaves node [c] to its parents: it pushes only on
    other nodes of the arena (of size [n]) and fires only other timers. *)
Definition spares (n c : nat) (e : Step) : bool :=
  match e with
  | DoPush sig _ => (sig <? n) && negb (sig =? c)
  | DoElapse _ => true
  | DoFire sig => negb (sig =? c)
  end.

(** Pushes on two nodes in any order: [true] is a push on [a]. *)
Definition interleave (a b : nat) (vs : list (bool * T)) : list Step :=
  (fun '(side, v) => DoPush (if side : bool then a else b) v) <$> vs.

(** The values of [vs] that differ from the one before them, [prev]
    being the one before the first. *)
Fixpoint changes (prev : T) (vs : list T) : list T :=
  match vs with
  | [] => []
  | v :: vs' => (if isEqual prev v then [] else [v]) ++ changes v vs'
  end.

(** The kinds under which function [fn] observes node [sig]. *)
Definition registered (sig fn : nat) (w : World) : list ObserverKind :=
  match nodes w !! sig with
  | Some s =>
      kind <$> base.filter (fun o => callback o = fn) (observers s)
  | None => []
  end.

(** A burst on [p]: each value is pushed and followed by a pause. *)
Definition burst (p : nat) (rounds : list (T * list Step)) : list Step :=
  rounds ≫= (fun '(v, pause) => DoPush p v :: pause).

(** During a pause shorter than [delayMs] time passes, timers of nodes
    younger than [p] may be run and such nodes other than [d] may be
    pushed; [p] and [d] are not pushed. *)
Definition pause_step (n p d : nat) (e : Step) : bool :=
  match e with
  | DoPush sig _ => (p <? sig) && (sig <? n) && negb (sig =? d)
  | DoElapse _ => true
  | DoFire sig => p <? sig
  end.

Definition short_pause (n p d delayMs : nat) (pause : list Step) : bool :=
  forallb (pause_step n p d) pause && (elapsed pause <? delayMs).

(** ** Programs

    What client code does with a graph: create a node, derive a child with
    a combinator (every combinator is a [derive]), register an observer,
    or let the host take a step.  Handles passed to a combinator are
    handles of the arena. *)
Inductive Op : Type :=
  | NewSignal (initial : option T)
  | NewChild (parents : list nat) (tr : Transform) (initial : option T)
  | NewObserver (k : ObserverKind) (sig fn : nat)
  | Run (e : Step).

Definition perform (w : World) (o : Op) : option World :=
  match o with
  | NewSignal initial => Some (fst (create initial w))
  | NewChild parents tr initial =>
      if forallb (fun p => p <? length (nodes w)) parents
      then Some (fst (derive parents tr initial w))
      else None
  | NewObserver k sig fn => Some (register k sig fn w)
  | Run e => step w e
  end.

Fixpoint program (os : list Op) (w : World) : option World :=
  match os with
  | [] => Some w
  | o :: os' =>
      match perform w o with
      | Some w' => program os' w'
      | None => None
      end
  end.

(** ** The shape of a graph *)

Definition skeleton (s : Signal) : Signal :=
  mkSignal None (children s) (transform s) (observers s) None.

Definition skel (w : World) : list Signal := skeleton <$> nodes w.

Definition shape (w : World) : list (list nat) := children <$> nodes w.

End WithValues.

Arguments Predicate : clear implicits.
Arguments Transform : clear implicits.
Arguments Signal : clear implicits.
Arguments Event : clear implicits.
Arguments World : clear implicits.
Arguments Step : clear implicits.
Arguments Op : clear implicits.

(** Graphs as lists of child lists. *)

Definition edge (g : list (list nat)) (a b : nat) : Prop :=
  exists cs, g !! a = Some cs /\ b ∈ cs.

Definition reach (g : list (list nat)) : nat -> nat -> Prop := rtc (edge g).

Fixpoint ascending (cs : list nat) : bool :=
  match cs with
  | a :: (b :: _) as tl => (a <=? b) && ascending tl
  | _ => true
  end.

Fixpoint wf_from (n i : nat) (g : list (list nat)) : bool :=
  match g with
  | [] => true
  | cs :: g' =>
      forallb (fun c => (i <? c) && (c <? n)) cs && ascending cs
      && wf_from n (S i) g'
  end.

(** What the combinators guarantee: a child is younger than its parents
    (its handle is larger), and child lists are in creation order. *)
Definition wf_graph (g : list (list nat)) : bool := wf_from (length g) 0 g.

Fixpoint occurrences (c : nat) (cs : list nat) : nat :=
  match cs with
  | [] => 0
  | x :: cs' => (if decide (x = c) then 1 else 0) + occurrences c cs'
  end.

Fixpoint sole_parent_from (i p c : nat) (g : list (list nat)) : bool :=
  match g with
  | [] => true
  | cs :: g' =>
      (occurrences c cs =? (if decide (i = p) then 1 else 0))
      && sole_parent_from (S i) p c g'
  end.

(** [c] was derived from [p] alone: it is in [p]'s list once and in no
    other. *)
Definition sole_parent (g : list (list nat)) (p c : nat) : bool :=
  (p <? length g) && sole_parent_from 0 p c g.

(** The graph without the edges that enter [f]. *)
Definition without (f : nat) (g : list (list nat)) : list (list nat) :=
  (fun cs => base.filter (fun c => c <> f) cs) <$> g.

Definition is_child (g : list (list nat)) (p c : nat) : bool :=
  match g !! p with
  | Some cs => bool_decide (c ∈ cs)
  | None => false
  end.

(** ** Footprints

    The relations between the worlds before and after a run that the
    proofs of the last part are built from. *)

Section Invariants.

Context {T : Type} `{EqDecision T}.
Implicit Types (w : World T).

(** [touches P w w']: from [w] to [w'] the graph and the clock are the
    same, the nodes outside [P] are the same, and the events added
    concern nodes in [P]. *)
Definition touches (P : nat -> Prop) w w' : Prop :=
  skel w' = skel w
  /\ now w' = now w
  /\ (forall n, ~ P n -> nodes w' !! n = nodes w !! n)
  /\ exists l, log w' = log w ++ l /\ Forall (fun e => P (event_node e)) l.

(** What is assumed of the push used by [deliver] and [propagate]. *)
Definition push_touches (push : World T -> nat -> T -> option (World T))
    : Prop :=
  forall w sig v w', push w sig v = Some w' ->
    touches (reach (shape w) sig) w w'.

Section Child.

Variables (p c : nat) (tr : Transform T).

(** From [w] to [w'] the parent was delivered [ps] and the child [cs]. *)
Definition moved w w' (ps cs : list T) : Prop :=
  skel w' = skel w
  /\ get c w' = final (get c w) cs
  /\ exists l, log w' = log w ++ l /\ pushed_to p l = ps /\ pushed_to c l = cs.

(** The child received what [relay] says of the parent's deliveries. *)
Definition follows w w' : Prop :=
  exists ps, moved w w' ps (relay tr (get c w) ps).

(** [c] is a child of [p] alone, with transform [tr], in a well-formed
    graph. *)
Definition well w : Prop :=
  wf_graph (shape w) = true
  /\ sole_parent (shape w) p c = true
  /\ transform_of c w = Some tr.

(** Changes that concern neither the child nor deliveries to the parent. *)
Definition aside w w' : Prop :=
  skel w' = skel w
  /\ now w' = now w
  /\ nodes w' !! c = nodes w !! c
  /\ exists l, log w' = log w ++ l /\ pushed_to p l = [] /\ pushed_to c l = [].

End Child.

(** From [w] to [w'] nothing was delivered to [d], which is as it was. *)
Definition waits (d : nat) w w' : Prop :=
  skel w' = skel w
  /\ nodes w' !! d = nodes w !! d
  /\ exists l, log w' = log w ++ l /\ pushed_to d l = [].

End Invariants.

(** The graph after a child with handle [n] is derived from [ps]. *)
Definition grown (n : nat) (ps : list nat) (g : list (list nat))
    : list (list nat) :=
  foldl (fun g' p => alter (fun cs => cs ++ [n]) p g') (g ++ [[]]) ps.

(** ** The graphs of the test suite *)

(** [sig], [sig.filter(v > 5)], and a [map(v + 1)] of the latter: handles
    0, 1, 2. *)
Definition filter_map_graph : World Z :=
  let '(w, sig) := create None empty in
  let '(w, sig1) := filter sig (Fn (fun v => 5 <? v)%Z) w in
  let '(w, _) := map sig1 (fun v => v + 1)%Z w in
  w.

Definition filter_map_after_9 : World Z :=
  default empty (push 0 9%Z filter_map_graph).

(** [sig], [f = sig.filter(v > 5)] and [g = f.merge(sig)]: handles 0, 1,
    2; [g] is a child of [f] and of [sig]. *)
Definition diamond : World Z :=
  let '(w, sig) := create None empty in
  let '(w, f) := filter sig (Fn (fun v => 5 <? v)%Z) w in
  let '(w, _) := merge f sig w in
  w.

(** [sig], [sig.fold((acc, next) => acc + next, '')]: handles 0, 1. *)
Definition hello_graph : World string :=
  let '(w, sig) := create None empty in
  let '(w, _) := fold sig String.append EmptyString w in
  w.

(** [sig], [sig.dropRepeats()] and a counter on the latter: handles 0, 1,
    2. *)
Definition counted_repeats_graph : World Z :=
  let '(w, sig) := create None empty in
  let '(w, sig1) := dropRepeats sig w in
  let '(w, _) := fold sig1 (fun acc _ => acc + 1)%Z 0%Z w in
  w.

(** [sig], [sig.debounce(20)], a counter on the latter and an [onValue]
    observer (function 0) of the debounced node: handles 0, 1, 2. *)
Definition debounce_graph : World Z :=
  let '(w, sig) := create None empty in
  let '(w, sig1) := debounce sig 20 w in
  let '(w, _) := fold sig1 (fun acc _ => acc + 1)%Z 0%Z w in
  onValue sig1 0 w.

(** [sig], [sig1] and [sig.merge(sig1)]: handles 0, 1, 2. *)
Definition merge_graph : World Z :=
  let '(w, sig) := create None empty in
  let '(w, sig1) := create None w in
  let '(w, _) := merge sig sig1 w in
  w.

(** [create(3)]. *)
Definition three : World Z := fst (create (Some 3%Z) empty).

(** The reading of "a rejected push leaves every descendant of the filter
    child unchanged", over integer values. *)
Definition filter_blocks_all_descendants : Prop :=
  forall (w : World Z) (p f : nat) (predicate : Z -> bool) (v : Z),
    wf_graph (shape w) = true ->
    sole_parent (shape w) p f = true ->
    transform_of f w = Some (Filter predicate) ->
    predicate v = false ->
    forall w', push p v w = Some w' ->
      get f w' = get f w
      /\ forall n, reach (shape w) f n -> get n w' = get n w.

End Signal.

(* ===================================================================== *)
(** * Part III: the other methods of Task                                *)
(* ===================================================================== *)

(** The methods of the Task class that change the type of the resolved
    value ([map], [join], [chain], [ap], [concat]) or only rewire the sinks
    ([recover], [default], [progress]).  A task is typed by the values it
    resolves with; what its calls do still happens on the one host of
    part I. *)

Module Methods.
Import Task.

Section WithHost.

(** The host's types: errors and thrown values, the values the host
    observes, progress reports. *)
Context {E V P : Type}.

(** The sinks of a task whose resolved values are of type [W]
    ([TaskSinks<E,W,P>]); what the calls do happens on the one host. *)
Record Sinks (W : Type) : Type := mkSinks {
  reject : Reason E -> Act E V P;
  resolve : W -> Act E V P;
  progress : option (P -> Act E V P)
}.
Arguments mkSinks {W} _ _ _.
Arguments reject {W} _ _.
Arguments resolve {W} _ _.
Arguments progress {W} _.

(** [Task<E,W,P>]. *)
Record TaskOf (W : Type) : Type := mkTask {
  _fn : Sinks W -> Act E V P
}.
Arguments mkTask {W} _.
Arguments _fn {W} _ _.

(** [TaskMapping<A,B> = ((val: A) => B) | B]; the constructor is what
    [typeof mapping === 'function'] tests. *)
Inductive TaskMapping (X Y : Type) : Type :=
  | MapFn (f : X -> Y)
  | MapValue (y : Y).
Arguments MapFn {X Y} f.
Arguments MapValue {X Y} y.

(** Modelled from the spec: [ofValue], the "value-or-function" normalizer
    of the utilities (not among the files at hand), by which a literal
    value is "treated as an equality predicate/constant mapping". *)
Definition ofValue {X Y : Type} (y : Y) : X -> Y := fun _ => y.

(** [noop], the do-nothing callback of the utilities, is a parameter. *)
Variable noop : P -> Act E V P.

Definition create {W} (computation : Sinks W -> Act E V P) : TaskOf W :=
  mkTask computation.

Definition run {W} (t : TaskOf W) (sinks : Sinks W) : Act E V P :=
  Immediate
    (TryCatch (_fn t sinks) (fun e => reject sinks e)).

Definition of_ {W} (val : W) : TaskOf W :=
  mkTask (fun sinks => resolve sinks val).

Definition join {B} (source : TaskOf (TaskOf B)) : TaskOf B :=
  mkTask (fun sinks =>
    run source
      {| reject := reject sinks;
         resolve := fun val => run val sinks;
         progress := Some noop |}).

Definition concat {W B} (source : TaskOf W) (task : TaskOf B) : TaskOf B :=
  mkTask (fun sinks =>
    run source
      {| reject := reject sinks;
         resolve := fun _ => run task sinks;
         progress := Some noop |}).

Definition map {W B} (source : TaskOf W) (mapping : TaskMapping W B)
    : TaskOf B :=
  let mappingFn : W -> B :=
    match mapping with
    | MapFn f => f
    | MapValue b => ofValue b
    end in
  mkTask (fun sinks =>
    run source
      {| reject := reject sinks;
         resolve := fun val => resolve sinks (mappingFn val);
         progress := progress sinks |}).

Definition success {W B} (source : TaskOf W) (mapping : TaskMapping W B)
    : TaskOf B :=
  map source mapping.

Definition chain {W B} (source : TaskOf W) (mapping : W -> TaskOf B)
    : TaskOf B :=
  join (map source (MapFn mapping)).

Definition ap {X B} (source : TaskOf (X -> B)) (task : TaskOf X) : TaskOf B :=
  chain source (fun fn => map task (MapFn fn)).

Definition recover {W} (source : TaskOf W)
    (mapping : TaskMapping (Reason E) W) : TaskOf W :=
  let mappingFn : Reason E -> W :=
    match mapping with
    | MapFn f => f
    | MapValue v => ofValue v
    end in
  mkTask (fun sinks =>
    run source
      {| reject := fun err => resolve sinks (mappingFn err);
         resolve := resolve sinks;
         progress := progress sinks |}).

Definition default {W} (source : TaskOf W) (val : W) : TaskOf W :=
  recover source (MapFn (fun _ => val)).

(** The method [progress] (the name is taken by the sink). *)
Definition progress_ {W} (source : TaskOf W) (mapping : TaskMapping P W)
    : TaskOf W :=
  let mappingFn : P -> W :=
    match mapping with
    | MapFn f => f
    | MapValue v => ofValue v
    end in
  mkTask (fun sinks =>
    run source
      {| reject := reject sinks;
         resolve := resolve sinks;
         progress := Some (fun val => resolve sinks (mappingFn val)) |}).

(** ** Bridges to the class at the host's own value type *)

Definition untyped (sinks : Sinks V) : TaskSinks E V P :=
  Task.mkSinks (reject sinks) (resolve sinks) (progress sinks).

Definition lift (t : Task E V P) : TaskOf V :=
  mkTask (fun sinks => Task._fn t (untyped sinks)).

Definition typed (sinks : TaskSinks E V P) : Sinks V :=
  mkSinks (Task.reject sinks) (Task.resolve sinks) (Task.progress sinks).

Definition lower (t : TaskOf V) : Task E V P :=
  Task.mkTask (fun sinks => _fn t (typed sinks)).

(** The callback that [run] hands to the scheduler. *)
Definition started {W} (t : TaskOf W) (sinks : Sinks W) : Act E V P :=
  TryCatch (_fn t sinks) (fun e => reject sinks e).

(** The sinks of a caller that only watches. *)
Definition probe : Sinks V :=
  {| reject := fun e => Emit (Rejected e);
     resolve := fun v => Emit (Resolved v);
     progress := Some (fun p => Emit (Progressed p)) |}.

(** ** Computations that only talk to their sinks

    A source makes the calls [cs] in order (it reports progress when it is
    given a progress sink) and then returns, or throws [fin]. *)
Inductive Call (W : Type) : Type :=
  | SayReject (e : Reason E)
  | SayResolve (v : W)
  | SayProgress (p : P).
Arguments SayReject {W} e.
Arguments SayResolve {W} v.
Arguments SayProgress {W} p.

Definition say {W} (sinks : Sinks W) (c : Call W) : Act E V P :=
  match c with
  | SayReject e => reject sinks e
  | SayResolve v => resolve sinks v
  | SayProgress p =>
      match progress sinks with
      | Some f => f p
      | None => Skip
      end
  end.

Fixpoint play {W} (cs : list (Call W)) (fin : option (Reason E))
    (sinks : Sinks W) : Act E V P :=
  match cs with
  | [] =>
      match fin with
      | Some x => Throw x
      | None => Skip
      end
  | c :: cs' => Seq (say sinks c) (play cs' fin sinks)
  end.

Definition scripted {W} (cs : list (Call W)) (fin : option (Reason E))
    : TaskOf W :=
  create (play cs fin).

(** A source that uses its reject sink only, as [k] says. *)
Definition rejecting {W} (k : (Reason E -> Act E V P) -> Act E V P)
    : TaskOf W :=
  create (fun sinks => k (reject sinks)).

Definition call_map {W B} (f : W -> B) (c : Call W) : Call B :=
  match c with
  | SayReject e => SayReject e
  | SayResolve v => SayResolve (f v)
  | SayProgress p => SayProgress p
  end.

Definition call_recover {W} (f : Reason E -> W) (c : Call W) : Call W :=
  match c with
  | SayReject e => SayResolve (f e)
  | other => other
  end.

Definition call_progress {W} (f : P -> W) (c : Call W) : Call W :=
  match c with
  | SayProgress p => SayResolve (f p)
  | other => other
  end.

Definition call_filter (test : V -> bool) (c : Call V) : Call V :=
  match c with
  | SayResolve v => if test v then SayResolve v else SayReject Null
  | other => other
  end.

(** What a watching caller records of a call. *)
Definition heard (c : Call V) : Obs E V P :=
  match c with
  | SayReject e => Rejected e
  | SayResolve v => Resolved v
  | SayProgress p => Progressed p
  end.

Definition is_rejected (o : Obs E V P) : bool :=
  match o with
  | Rejected _ => true
  | _ => false
  end.

Definition is_progressed (o : Obs E V P) : bool :=
  match o with
  | Progressed _ => true
  | _ => false
  end.

Definition passes (test : V -> bool) (o : Obs E V P) : bool :=
  match o with
  | Resolved v => test v
  | _ => true
  end.

(** What a watching caller records of a source that makes the calls [cs]
    and throws [fin], if it does. *)
Definition record_of (cs : list (Call V)) (fin : option (Reason E))
    : list (Obs E V P) :=
  (heard <$> cs) ++ match fin with Some x => [Rejected x] | None => [] end.

(** The same once rejections are recovered by [f]. *)
Definition recovered (f : Reason E -> V) (cs : list (Call V))
    (fin : option (Reason E)) : list (Obs E V P) :=
  (heard <$> (call_recover f <$> cs))
    ++ match fin with Some x => [Resolved (f x)] | None => [] end.

(** The function a mapping stands for, as the first lines of [map],
    [recover] and [progress] compute it. *)
Definition mappingFn {X Y} (mapping : TaskMapping X Y) : X -> Y :=
  match mapping with
  | MapFn f => f
  | MapValue y => ofValue y
  end.

End WithHost.

Arguments mkSinks {E V P W} _ _ _.
Arguments reject {E V P W} _ _.
Arguments resolve {E V P W} _ _.
Arguments progress {E V P W} _.
Arguments mkTask {E V P W} _.
Arguments _fn {E V P W} _ _.
Arguments MapFn {X Y} f.
Arguments MapValue {X Y} y.
Arguments SayReject {E P W} e.
Arguments SayResolve {E P W} v.
Arguments SayProgress {E P W} p.

End Methods.

(** ** The graphs of the map and filter tests *)

Module SignalGraphs.
Import Signal.

(** [sig], [sig.map(val => val + 5)]: handles 0, 1. *)
Definition map_graph : World Z :=
  let '(w, sig) := create None empty in
  let '(w, _) := map sig (fun val => val + 5)%Z w in
  w.

(** [sig], [sig.filter(val => val > 5)]: handles 0, 1. *)
Definition filter_graph : World Z :=
  let '(w, sig) := create None empty in
  let '(w, _) := filter sig (Fn (fun val => 5 <? val)%Z) w in
  w.

End SignalGraphs.

(* ===================================================================== *)
(** * Part IV: properties of Task                                         *)
(* ===================================================================== *)

Module TaskSpec.
Import Task.

Section Facts.

Context {E V P : Type}.
Implicit Types (a b : Act E V P) (w : World E V P) (t : Task E V P).
Implicit Types (sinks : TaskSinks E V P) (e x : Reason E).

Lemma exec_uncaught a w : uncaught (snd (exec a w)) = uncaught w.
Proof.
  revert w.
  induction a as [| e | o | fn _ | a IHa b IHb | body IHb handler IHh];
    intros w; simpl; try reflexivity.
  - specialize (IHa w). destruct (exec a w) as [[| e] w']; simpl in *.
    + rewrite IHb. exact IHa.
    + exact IHa.
  - specialize (IHb w). destruct (exec body w) as [[| e] w']; simpl in *.
    + exact IHb.
    + rewrite IHh. exact IHb.
Qed.

Lemma exec_trace_grows a w : exists l, trace (snd (exec a w)) = trace w ++ l.
Proof.
  revert w.
  induction a as [| e | o | fn _ | a IHa b IHb | body IHb handler IHh];
    intros w; simpl.
  - exists []. by rewrite app_nil_r.
  - exists []. by rewrite app_nil_r.
  - by exists [o].
  - exists []. by rewrite app_nil_r.
  - destruct (IHa w) as [l1 H1]. destruct (exec a w) as [[| e] w']; simpl in *.
    + destruct (IHb w') as [l2 H2]. exists (l1 ++ l2).
      by rewrite H2, H1, app_assoc.
    + by exists l1.
  - destruct (IHb w) as [l1 H1].
    destruct (exec body w) as [[| e] w']; simpl in *.
    + by exists l1.
    + destruct (IHh e w') as [l2 H2]. exists (l1 ++ l2).
      by rewrite H2, H1, app_assoc.
Qed.

(** ** C6 *)

(** C6. [run] does not start the wrapped computation within the call: for
    every task, every sinks object and every state of the host, the call
    does nothing but hand one callback to [immediate] and returns normally.
    The trace of sink calls and the uncaught exceptions are what they
    were, the scheduler's queue has grown by exactly that callback, which
    will start the computation in a later turn, and whatever statement
    follows the call runs before the computation does. *)
Theorem run_defers_start t sinks w (rest : Act E V P) :
  exec (run t sinks) w = (Normal, immediate (started t sinks) w)
  /\ trace (snd (exec (run t sinks) w)) = trace w
  /\ uncaught (snd (exec (run t sinks) w)) = uncaught w
  /\ queue (snd (exec (run t sinks) w)) = queue w ++ [started t sinks]
  /\ exec (Seq (run t sinks) rest) w
     = exec rest (immediate (started t sinks) w).
Proof.
  assert (exec (run t sinks) w = (Normal, immediate (started t sinks) w))
    as Hrun by reflexivity.
  split; [exact Hrun |]. rewrite Hrun. simpl.
  split; [reflexivity |]. split; [reflexivity |]. split; reflexivity.
Qed.

(** ** C9 *)

(** C9, amended.  If the computation throws [x] synchronously, having
    brought the host from [w] to [w1], then the callback started by [run]
    goes on exactly as the call [sinks.reject(x)] from [w1]: the handler
    calls reject with the thrown value and does nothing else.  If that
    call returns normally, the turn ends with no exception handed to the
    scheduler. *)
Theorem run_rejects_thrown t sinks x w w1 :
  exec (_fn t sinks) w = (Threw x, w1) ->
  exec (started t sinks) w = exec (reject sinks x) w1
  /\ forall w2, exec (reject sinks x) w1 = (Normal, w2) ->
       turn (started t sinks) w = w2 /\ uncaught w2 = uncaught w.
Proof.
  intros Hthrow. unfold started, turn. simpl. rewrite Hthrow. split; [done |].
  intros w2 Hrej. rewrite Hrej. split; [done |].
  pose proof (exec_uncaught (reject sinks x) w1) as H2.
  pose proof (exec_uncaught (_fn t sinks) w) as H1.
  rewrite Hrej in H2. rewrite Hthrow in H1. simpl in *. congruence.
Qed.

(** For a recording caller: the trace of the turn is what the computation
    did before it threw, followed by the one call of reject. *)
Lemma run_rejects_thrown_probe t x w w1 :
  exec (_fn t probe) w = (Threw x, w1) ->
  turn (started t probe) w = emit (Rejected x) w1.
Proof.
  intros Hthrow. unfold started, turn. simpl. by rewrite Hthrow.
Qed.

(** ** C10 and C5 *)

Variable isEqual : V -> V -> bool.

Lemma settle_filter_of (predicate : TaskPredicate V) (v : V) n :
  settle (E:=E) (P:=P) (2 + n) (run (filter isEqual (of_ v) predicate) probe)
  = Some (mkWorld
            [if filterFn isEqual predicate v then Resolved v else Rejected Null]
            [] []).
Proof.
  unfold settle. simpl. unfold turn. simpl.
  destruct predicate as [f | l]; simpl.
  - destruct (f v); simpl; by destruct n.
  - destruct (isEqual l v); simpl; by destruct n.
Qed.

(** C10. For every source, predicate and downstream sinks, the
    computation of the filtered task runs the source with sinks whose
    [reject] and [progress] are the downstream ones and whose [resolve],
    called with [v], is the downstream [resolve] on [v] when [v] passes the
    test and the downstream [reject] on [null] when it fails.  Run to the
    end on a source that resolves with [v], a recording caller sees
    exactly one call: resolve with [v], or reject with [null]. *)
Theorem filter_failure_rejects_null (source : Task E V P)
    (predicate : TaskPredicate V) sinks (v : V) n :
  (exists inner,
      _fn (filter isEqual source predicate) sinks = run source inner
      /\ reject inner = reject sinks
      /\ progress inner = progress sinks
      /\ resolve inner v =
           if filterFn isEqual predicate v then resolve sinks v
           else reject sinks Null)
  /\ settle (E:=E) (P:=P) (2 + n) (run (filter isEqual (of_ v) predicate) probe)
     = Some (mkWorld
               [if filterFn isEqual predicate v then Resolved v else Rejected Null]
               [] []).
Proof.
  split; [| apply settle_filter_of].
  destruct predicate as [f | l]; simpl; eexists; repeat split.
Qed.

(** C5. With an equality test that decides equality, a literal given to
    [filter] (or [validate]) yields the task that the callback
    [isEqual literal] yields; run on a source that resolves with [v], it
    resolves with [v] when [v] is the literal and rejects otherwise.  A
    function is used as the test as it is. *)
Theorem filter_literal_is_equality_test
    (isEqual_spec : forall l r : V, isEqual l r = true <-> l = r)
    (source : Task E V P) (literal v : V) (f : V -> bool) n :
  filter isEqual source (PredValue literal)
    = filter isEqual source (PredFn (isEqual literal))
  /\ (forall predicate,
       validate isEqual source predicate = filter isEqual source predicate)
  /\ (v = literal ->
      settle (E:=E) (P:=P) (2 + n) (run (filter isEqual (of_ v) (PredValue literal)) probe)
      = Some (mkWorld [Resolved v] [] []))
  /\ (v <> literal ->
      settle (E:=E) (P:=P) (2 + n) (run (filter isEqual (of_ v) (PredValue literal)) probe)
      = Some (mkWorld [Rejected Null] [] []))
  /\ settle (E:=E) (P:=P) (2 + n) (run (validate isEqual (of_ v) (PredFn f)) probe)
     = Some (mkWorld [if f v then Resolved v else Rejected Null] [] []).
Proof.
  split; [reflexivity |]. split; [reflexivity |].
  split; [| split].
  - intros ->. rewrite settle_filter_of. simpl.
    by rewrite (proj2 (isEqual_spec literal literal) eq_refl).
  - intros Hne. rewrite settle_filter_of. simpl.
    destruct (isEqual literal v) eqn:Heq; [| done].
    apply isEqual_spec in Heq. congruence.
  - unfold validate. by rewrite settle_filter_of.
Qed.

End Facts.

(** C9, counterexample: the task [resolve_then_throw] throws when started,
    and resolve has been called by then. *)
Lemma throw_after_resolve_is_seen : ~ throw_only_rejects resolve_then_throw.
Proof.
  intros H.
  destruct (H (NotNull 2%Z) (emit (Resolved 1%Z) idle) eq_refl 1
              (mkWorld [Resolved 1%Z; Rejected (NotNull 2%Z)] [] []) eq_refl)
    as (_ & _ & Hno).
  apply (Hno 1%Z). left.
Qed.

(** [run_rejects_thrown] at the task that resolves and then throws. *)
Lemma run_rejects_thrown_witness :
  exec (_fn resolve_then_throw probe) idle
    = (Threw (NotNull 2%Z), emit (Resolved 1%Z) idle)
  /\ exec (started resolve_then_throw probe) idle
     = exec (reject probe (NotNull 2%Z)) (emit (Resolved 1%Z) idle).
Proof.
  split; [reflexivity |].
  exact (proj1 (run_rejects_thrown resolve_then_throw probe (NotNull 2%Z)
                  idle (emit (Resolved 1%Z) idle) eq_refl)).
Defined.

(** [filter_literal_is_equality_test] over the integers, at the literal 7
    and a source that resolves with 7. *)
Lemma filter_literal_is_equality_test_witness :
  (forall a b : Z, Z.eqb a b = true <-> a = b)
  /\ settle 2 (run (filter Z.eqb (of_ (E:=Z) (P:=Z) 7%Z) (PredValue 7%Z)) probe)
     = Some (mkWorld [Resolved 7%Z] [] []).
Proof.
  split; [exact Z.eqb_eq |].
  exact (proj1 (proj2 (proj2
    (filter_literal_is_equality_test Z.eqb Z.eqb_eq (of_ 0%Z) 7%Z 7%Z
       (fun _ => true) 0))) eq_refl).
Defined.

End TaskSpec.

(* ===================================================================== *)
(** * Part V: properties of Signal                                        *)
(* ===================================================================== *)

Module SignalSpec.
Import Signal.

(** ** Graphs *)

Section Graphs.

Implicit Types (g : list (list nat)) (cs : list nat).

Lemma wf_from_lookup n i g a cs :
  wf_from n i g = true -> g !! a = Some cs ->
  Forall (fun c => i + a < c < n) cs /\ ascending cs = true.
Proof.
  revert i a. induction g as [| cs0 g IH]; intros i a Hwf Hl; [done |].
  simpl in Hwf. apply andb_true_iff in Hwf as [Hwf Hrest].
  apply andb_true_iff in Hwf as [Hall Hasc].
  destruct a as [| a]; simpl in Hl.
  - injection Hl as <-. split; [| done].
    apply Forall_forall. intros c Hc.
    rewrite forallb_forall in Hall. apply list_elem_of_In, Hall in Hc.
    apply andb_true_iff in Hc as [H1 H2].
    apply Nat.ltb_lt in H1, H2. lia.
  - destruct (IH (S i) a Hrest Hl) as [HF Ha]. split; [| done].
    eapply Forall_impl; [exact HF |]. simpl. intros c. lia.
Qed.

Lemma wf_graph_lookup g a cs :
  wf_graph g = true -> g !! a = Some cs ->
  Forall (fun c => a < c < length g) cs /\ ascending cs = true.
Proof. intros Hwf Hl. exact (wf_from_lookup _ 0 g a cs Hwf Hl). Qed.

Lemma edge_lt g a b : wf_graph g = true -> edge g a b -> a < b < length g.
Proof.
  intros Hwf (cs & Hl & Hin).
  destruct (wf_graph_lookup g a cs Hwf Hl) as [HF _].
  rewrite Forall_forall in HF. by apply HF.
Qed.

Lemma reach_le g a b : wf_graph g = true -> reach g a b -> a <= b.
Proof.
  intros Hwf Hr. induction Hr as [| a b c Hab _ IH]; [done |].
  apply (edge_lt g a b Hwf) in Hab. lia.
Qed.

Lemma reach_child g a c n : edge g a c -> reach g c n -> reach g a n.
Proof. intros. by eapply rtc_l. Qed.

Lemma ascending_after cs1 c cs2 x :
  ascending (cs1 ++ c :: cs2) = true -> x ∈ cs2 -> c <= x.
Proof.
  induction cs1 as [| a cs1 IH]; simpl.
  - revert c. induction cs2 as [| b cs2 IH2]; intros c Hasc Hx.
    + by apply elem_of_nil in Hx.
    + simpl in Hasc. apply andb_true_iff in Hasc as [Hcb Hrest].
      apply Nat.leb_le in Hcb.
      apply elem_of_cons in Hx as [-> | Hx]; [done |].
      specialize (IH2 b Hrest Hx). lia.
  - intros Hasc Hx. apply IH; [| done].
    destruct (cs1 ++ c :: cs2) eqn:Heq; [by destruct cs1 |].
    by apply andb_true_iff in Hasc as [_ ?].
Qed.

Lemma occurrences_zero c cs : occurrences c cs = 0 <-> c ∉ cs.
Proof.
  induction cs as [| x cs IH]; simpl.
  - split; [intros _; apply not_elem_of_nil | done].
  - rewrite not_elem_of_cons. destruct (decide (x = c)) as [-> | Hne]; simpl.
    + split; [done | intros [? _]; done].
    + rewrite IH. split.
      * intros ?. split; [congruence | done].
      * by intros [_ ?].
Qed.

Lemma occurrences_one c cs :
  occurrences c cs = 1 ->
  exists cs1 cs2, cs = cs1 ++ c :: cs2 /\ (c ∉ cs1) /\ (c ∉ cs2).
Proof.
  induction cs as [| x cs IH]; simpl; [done |].
  destruct (decide (x = c)) as [-> | Hne]; simpl.
  - intros Hocc. exists [], cs. split; [done |]. split; [apply not_elem_of_nil |].
    apply occurrences_zero. lia.
  - intros Hocc. destruct (IH Hocc) as (cs1 & cs2 & -> & H1 & H2).
    exists (x :: cs1), cs2. split; [done |]. split; [| done].
    rewrite not_elem_of_cons. split; [congruence | done].
Qed.

Lemma sole_parent_from_lookup i p c g a cs :
  sole_parent_from i p c g = true -> g !! a = Some cs ->
  occurrences c cs = if decide (i + a = p) then 1 else 0.
Proof.
  revert i a. induction g as [| cs0 g IH]; intros i a Hsp Hl; [done |].
  simpl in Hsp. apply andb_true_iff in Hsp as [Hhere Hrest].
  destruct a as [| a]; simpl in Hl.
  - injection Hl as <-. apply Nat.eqb_eq in Hhere.
    rewrite Nat.add_0_r. exact Hhere.
  - rewrite (IH (S i) a Hrest Hl).
    replace (S i + a) with (i + S a) by lia. done.
Qed.

Lemma sole_parent_only g p c q :
  sole_parent g p c = true -> edge g q c -> q = p.
Proof.
  intros Hsp (cs & Hl & Hin). apply andb_true_iff in Hsp as [_ Hsp].
  pose proof (sole_parent_from_lookup 0 p c g q cs Hsp Hl) as Hocc.
  simpl in Hocc. destruct (decide (q = p)); [done |].
  apply occurrences_zero in Hocc. done.
Qed.

Lemma sole_parent_split g p c :
  sole_parent g p c = true ->
  exists cs1 cs2, g !! p = Some (cs1 ++ c :: cs2) /\ (c ∉ cs1) /\ (c ∉ cs2).
Proof.
  intros Hsp. apply andb_true_iff in Hsp as [Hlt Hsp].
  apply Nat.ltb_lt in Hlt.
  destruct (lookup_lt_is_Some_2 g p Hlt) as [cs Hl].
  pose proof (sole_parent_from_lookup 0 p c g p cs Hsp Hl) as Hocc.
  simpl in Hocc. destruct (decide (p = p)); [| done].
  destruct (occurrences_one c cs Hocc) as (cs1 & cs2 & -> & H1 & H2).
  by exists cs1, cs2.
Qed.

Lemma sole_parent_edge g p c : sole_parent g p c = true -> edge g p c.
Proof.
  intros Hsp. destruct (sole_parent_split g p c Hsp) as (cs1 & cs2 & Hl & _).
  eexists. split; [exact Hl |]. apply elem_of_app. right. left.
Qed.

(** A node with a single parent is reached only through that parent. *)
Lemma reach_through_parent g p c a :
  sole_parent g p c = true -> reach g a c -> a = c \/ reach g a p.
Proof.
  intros Hsp Hr. apply rtc_inv_r in Hr as [-> | (q & Hq & Hedge)]; [by left |].
  right. by rewrite <- (sole_parent_only g p c q Hsp Hedge).
Qed.

(** So a younger sibling's subtree, or the node's own subtree, never
    contains it. *)
Lemma not_reach_sole g p c a :
  wf_graph g = true -> sole_parent g p c = true ->
  p < a -> a <> c -> ~ reach g a c.
Proof.
  intros Hwf Hsp Hlt Hne Hr.
  destruct (reach_through_parent g p c a Hsp Hr) as [-> | Hp]; [done |].
  apply (reach_le g a p Hwf) in Hp. lia.
Qed.

End Graphs.

(** ** Worlds: what a push can change *)

Section Footprint.

Context {T : Type} `{EqDecision T}.
Implicit Types (w : World T) (s : Signal T) (v : T) (P Q : nat -> Prop).

Lemma shape_skel w : shape w = children <$> skel w.
Proof.
  unfold shape, skel. rewrite <- list_fmap_compose. by apply list_fmap_ext.
Qed.

Lemma skel_shape w w' : skel w' = skel w -> shape w' = shape w.
Proof. intros Hs. by rewrite !shape_skel, Hs. Qed.

Lemma skel_length w w' :
  skel w' = skel w -> length (nodes w') = length (nodes w).
Proof.
  intros Hs. apply (f_equal length) in Hs. unfold skel in Hs.
  by rewrite !length_fmap in Hs.
Qed.

Lemma skel_lookup w w' n s s' :
  skel w' = skel w -> nodes w !! n = Some s -> nodes w' !! n = Some s' ->
  children s' = children s /\ transform s' = transform s
  /\ observers s' = observers s.
Proof.
  intros Hs Hl Hl'. apply (f_equal (fun l => l !! n)) in Hs. unfold skel in Hs.
  rewrite !list_lookup_fmap, Hl, Hl' in Hs. simpl in Hs.
  injection Hs as H1 H2 H3. done.
Qed.

Lemma skel_lookup_is_Some w w' n s :
  skel w' = skel w -> nodes w !! n = Some s -> is_Some (nodes w' !! n).
Proof.
  intros Hs Hl. apply lookup_lt_is_Some. rewrite (skel_length _ _ Hs).
  apply lookup_lt_is_Some. by eexists.
Qed.

Lemma shape_lookup w n s :
  nodes w !! n = Some s -> shape w !! n = Some (children s).
Proof. intros Hl. unfold shape. by rewrite list_lookup_fmap, Hl. Qed.

Lemma skel_alter_node f n w :
  (forall s, skeleton (f s) = skeleton s) -> skel (alter_node f n w) = skel w.
Proof.
  intros Hf. unfold skel, alter_node. simpl.
  rewrite (list_fmap_alter skeleton f id).
  - by apply list_alter_id.
  - apply Forall_forall. intros s _. apply Hf.
Qed.

Lemma touches_refl P w : touches P w w.
Proof.
  repeat split; try done. exists []. by rewrite app_nil_r.
Qed.

Lemma touches_trans P w1 w2 w3 :
  touches P w1 w2 -> touches P w2 w3 -> touches P w1 w3.
Proof.
  intros (Hs1 & Hn1 & Hf1 & l1 & Hl1 & HF1) (Hs2 & Hn2 & Hf2 & l2 & Hl2 & HF2).
  repeat split; try congruence.
  - intros n Hn. by rewrite Hf2, Hf1.
  - exists (l1 ++ l2). split; [by rewrite Hl2, Hl1, app_assoc |].
    by apply Forall_app.
Qed.

Lemma touches_mono P Q w w' :
  (forall n, P n -> Q n) -> touches P w w' -> touches Q w w'.
Proof.
  intros HPQ (Hs & Hn & Hf & l & Hl & HF). repeat split; try done.
  - intros n Hn'. apply Hf. intros HP. by apply Hn', HPQ.
  - exists l. split; [done |]. eapply Forall_impl; [exact HF |].
    simpl. intros e. apply HPQ.
Qed.

Lemma touches_alter_node P f n w :
  (forall s, skeleton (f s) = skeleton s) -> P n ->
  touches P w (alter_node f n w).
Proof.
  intros Hf HP. repeat split.
  - by apply skel_alter_node.
  - intros m Hm. simpl. apply list_lookup_alter_ne. intros ->. done.
  - exists []. by rewrite app_nil_r.
Qed.

Lemma touches_record P e w : P (event_node e) -> touches P w (record e w).
Proof.
  intros HP. repeat split. exists [e]. split; [done |]. by apply Forall_singleton.
Qed.

Lemma announce_at sig prev v o :
  Forall (fun e => event_node e = sig) (announce sig prev v o).
Proof.
  unfold announce.
  destruct (kind o); [| destruct prev as [u |]; [destruct (isEqual u v) |] |];
    repeat constructor.
Qed.

Lemma notify_all_nodes sig prev v os w :
  nodes (foldl (notify sig prev v) w os) = nodes w
  /\ now (foldl (notify sig prev v) w os) = now w
  /\ log (foldl (notify sig prev v) w os)
     = log w ++ (os ≫= announce sig prev v).
Proof.
  revert w. induction os as [| o os IH]; intros w; simpl.
  - by rewrite app_nil_r.
  - destruct (IH (notify sig prev v w o)) as (-> & -> & ->). simpl.
    by rewrite app_assoc.
Qed.

Lemma announce_all_at sig prev v os :
  Forall (fun e => event_node e = sig) (os ≫= announce sig prev v).
Proof.
  induction os as [| o os IH]; simpl; [constructor |].
  apply Forall_app. split; [apply announce_at | exact IH].
Qed.

Lemma touches_notify_all P sig prev v os w :
  P sig -> touches P w (foldl (notify sig prev v) w os).
Proof.
  intros HP. destruct (notify_all_nodes sig prev v os w) as (Hn & Ht & Hl).
  repeat split.
  - unfold skel. by rewrite Hn.
  - done.
  - intros n _. by rewrite Hn.
  - eexists. split; [exact Hl |].
    eapply Forall_impl; [apply announce_all_at |]. simpl. by intros e ->.
Qed.

Lemma deliver_touches push w c v w' :
  push_touches push -> deliver push w c v = Some w' ->
  touches (reach (shape w) c) w w'.
Proof.
  intros Hpush. unfold deliver.
  destruct (nodes w !! c) as [s |]; [| intros [= <-]; apply touches_refl].
  destruct (transform s) as [| fn | predicate | combine | | | delayMs].
  - intros [= <-]. apply touches_refl.
  - apply Hpush.
  - destruct (predicate v); [apply Hpush | intros [= <-]; apply touches_refl].
  - destruct (value s); [apply Hpush | intros [= <-]; apply touches_refl].
  - destruct (value s) as [last |]; [| apply Hpush].
    destruct (isEqual last v); [intros [= <-]; apply touches_refl | apply Hpush].
  - apply Hpush.
  - intros [= <-]. apply touches_alter_node; [done | apply rtc_refl].
Qed.

Lemma propagate_touches push cs v w w' :
  push_touches push -> propagate push cs v w = Some w' ->
  touches (fun n => exists c, c ∈ cs /\ reach (shape w) c n) w w'.
Proof.
  intros Hpush. revert w. induction cs as [| c cs IH]; intros w; simpl.
  - intros [= <-]. apply touches_refl.
  - destruct (deliver push w c v) as [w1 |] eqn:Hd; [| done]. intros Hp.
    pose proof (deliver_touches _ _ _ _ _ Hpush Hd) as H1.
    pose proof (IH _ Hp) as H2.
    assert (shape w1 = shape w) as Hsh by (apply skel_shape, H1).
    rewrite Hsh in H2.
    eapply touches_trans.
    + eapply touches_mono; [| exact H1]. intros n Hn. exists c. split; [left | done].
    + eapply touches_mono; [| exact H2]. intros n (c' & Hc' & Hn).
      exists c'. split; [by right | done].
Qed.

Lemma push_fuel_touches fuel : push_touches (T:=T) (push_fuel fuel).
Proof.
  induction fuel as [| fuel IH]; intros w sig v w'; simpl; [done |].
  destruct (nodes w !! sig) as [s |] eqn:Hs; [| done].
  destruct (propagate _ _ _ _) as [w2 |] eqn:Hp; [| done]. intros [= <-].
  pose proof (propagate_touches _ _ _ _ _ IH Hp) as H2.
  set (w1 := record (Pushed sig v) (alter_node (set_value v) sig w)) in *.
  assert (touches (reach (shape w) sig) w w1) as H1.
  { eapply touches_trans.
    - apply (touches_alter_node _ (set_value v) sig); [done | apply rtc_refl].
    - apply touches_record. apply rtc_refl. }
  assert (shape w1 = shape w) as Hsh by (apply skel_shape, H1).
  rewrite Hsh in H2.
  eapply touches_trans; [exact H1 |]. eapply touches_trans.
  - eapply touches_mono; [| exact H2]. intros n (c & Hc & Hn).
    eapply reach_child; [| exact Hn]. exists (children s).
    split; [by apply shape_lookup | done].
  - apply touches_notify_all.
    (* the graph of [w2] is that of [w] *)
    apply rtc_refl.
Qed.


(** ** The log *)

Lemma pushed_to_app x (l1 l2 : list (Event T)) :
  pushed_to x (l1 ++ l2) = pushed_to x l1 ++ pushed_to x l2.
Proof. apply omap_app. Qed.

Lemma calls_of_app x fn (l1 l2 : list (Event T)) :
  calls_of x fn (l1 ++ l2) = calls_of x fn l1 ++ calls_of x fn l2.
Proof. apply omap_app. Qed.

Lemma pushed_to_away P x (l : list (Event T)) :
  Forall (fun e => P (event_node e)) l -> ~ P x -> pushed_to x l = [].
Proof.
  intros HF Hx. induction HF as [| e l He _ IH]; [done |].
  change (e :: l) with ([e] ++ l). rewrite pushed_to_app, IH, app_nil_r.
  destruct e as [s v | s f v]; [| done]. simpl in He.
  unfold pushed_to. simpl. destruct (decide (s = x)) as [-> | ?]; done.
Qed.

Lemma calls_of_away P x fn (l : list (Event T)) :
  Forall (fun e => P (event_node e)) l -> ~ P x -> calls_of x fn l = [].
Proof.
  intros HF Hx. induction HF as [| e l He _ IH]; [done |].
  change (e :: l) with ([e] ++ l). rewrite calls_of_app, IH, app_nil_r.
  destruct e as [s v | s f v]; [done |]. simpl in He.
  unfold calls_of. simpl.
  destruct (decide (s = x /\ f = fn)) as [[-> _] | ?]; done.
Qed.

Lemma pushed_to_announce x sig prev v os :
  pushed_to x (os ≫= announce sig prev v) = [].
Proof.
  induction os as [| o os IH]; [done |].
  rewrite bind_cons, pushed_to_app, IH, app_nil_r. unfold announce.
  destruct (kind o); [| destruct prev as [u |]; [destruct (isEqual u v) |] |];
    done.
Qed.

(** ** One push, taken apart *)

Lemma propagate_app push cs1 cs2 v w :
  propagate push (cs1 ++ cs2) v w
  = propagate push cs1 v w ≫= propagate push cs2 v.
Proof.
  revert w. induction cs1 as [| c cs1 IH]; intros w; simpl; [done |].
  destruct (deliver push w c v) as [w1 |]; [apply IH | done].
Qed.

Lemma push_fuel_unfold fuel w sig v w' :
  push_fuel fuel w sig v = Some w' ->
  exists fuel' s w2,
    fuel = S fuel' /\ nodes w !! sig = Some s
    /\ propagate (push_fuel fuel') (children s) v
         (record (Pushed sig v) (alter_node (set_value v) sig w)) = Some w2
    /\ w' = foldl (notify sig (value s) v) w2 (observers s).
Proof.
  destruct fuel as [| fuel']; simpl; [done |].
  destruct (nodes w !! sig) as [s |]; [| done].
  destruct (propagate _ _ _ _) as [w2 |] eqn:Hp; [| done].
  intros [= <-]. by exists fuel', s, w2.
Qed.

(** Below a node of a well-formed graph there are only younger nodes. *)
Lemma below_children_lt g a cs n :
  wf_graph g = true -> g !! a = Some cs ->
  (exists c, c ∈ cs /\ reach g c n) -> a < n.
Proof.
  intros Hwf Hl (c & Hc & Hr).
  assert (a < c) by (apply (edge_lt g a c Hwf); by exists cs).
  apply (reach_le g c n Hwf) in Hr. lia.
Qed.

Lemma push_fuel_self fuel w sig v w' s :
  wf_graph (shape w) = true -> nodes w !! sig = Some s ->
  push_fuel fuel w sig v = Some w' ->
  nodes w' !! sig = Some (set_value v s)
  /\ skel w' = skel w
  /\ now w' = now w
  /\ exists l,
       log w' = log w ++ Pushed sig v :: l
                  ++ (observers s ≫= announce sig (value s) v)
       /\ Forall (fun e => sig < event_node e) l.
Proof.
  intros Hwf Hs Hpush.
  destruct (push_fuel_unfold _ _ _ _ _ Hpush) as (fuel' & s' & w2 & -> & Hs' & Hp & ->).
  rewrite Hs in Hs'. injection Hs' as <-.
  pose proof (propagate_touches _ _ _ _ _ (push_fuel_touches fuel') Hp) as Ht.
  set (w1 := record (Pushed sig v) (alter_node (set_value v) sig w)) in *.
  assert (skel w1 = skel w) as Hsk1 by (by apply skel_alter_node).
  assert (shape w1 = shape w) as Hsh1 by (by apply skel_shape).
  rewrite Hsh1 in Ht.
  eapply touches_mono in Ht;
    [| intros n Hn; exact (below_children_lt _ sig (children s) n Hwf
                             (shape_lookup _ _ _ Hs) Hn)].
  destruct Ht as (Hsk2 & Hn2 & Hf2 & l & Hl2 & HF2).
  destruct (notify_all_nodes sig (value s) v (observers s) w2) as (Hnn & Hnt & Hnl).
  repeat split.
  - rewrite Hnn, Hf2 by lia. simpl. by rewrite list_lookup_alter_eq, Hs.
  - transitivity (skel w2); [unfold skel; by rewrite Hnn | congruence].
  - by rewrite Hnt, Hn2.
  - exists l. split; [| done]. rewrite Hnl, Hl2. simpl.
    by rewrite <- !app_assoc.
Qed.

(** ** Push returns *)

Lemma deliver_returns push w c v :
  (forall v', is_Some (nodes w !! c) -> is_Some (push w c v')) ->
  is_Some (deliver push w c v).
Proof.
  intros Hpush. unfold deliver.
  destruct (nodes w !! c) as [s |] eqn:Hs; [| done].
  assert (forall v', is_Some (push w c v')) as Hp by (intros; by apply Hpush).
  destruct (transform s) as [| fn | predicate | combine | | | delayMs]; try done.
  - destruct (predicate v); done.
  - destruct (value s); done.
  - destruct (value s) as [last |]; [destruct (isEqual last v) |]; done.
Qed.

Lemma propagate_returns push g cs v w :
  push_touches push ->
  (forall w' c v', shape w' = g -> c ∈ cs -> is_Some (nodes w' !! c) ->
     is_Some (push w' c v')) ->
  shape w = g -> is_Some (propagate push cs v w).
Proof.
  intros Ht Hpush. revert w.
  induction cs as [| c cs IH]; intros w Hg; simpl; [done |].
  destruct (deliver_returns push w c v) as [w1 Hd].
  { intros v' Hc. apply Hpush; [done | left | done]. }
  rewrite Hd. apply IH.
  - intros w' c' v' Hg' Hc'. apply Hpush; [done | by right].
  - pose proof (deliver_touches _ _ _ _ _ Ht Hd) as H1.
    rewrite <- Hg. apply skel_shape, H1.
Qed.

Lemma push_fuel_returns fuel w sig v :
  wf_graph (shape w) = true -> sig < length (nodes w) ->
  length (nodes w) <= fuel + sig -> is_Some (push_fuel fuel w sig v).
Proof.
  revert w sig v. induction fuel as [| fuel IH]; intros w sig v Hwf Hlt Hfuel.
  { simpl in Hfuel. lia. }
  simpl. destruct (lookup_lt_is_Some_2 _ _ Hlt) as [s Hs]. rewrite Hs.
  set (w1 := record (Pushed sig v) (alter_node (set_value v) sig w)).
  assert (skel w1 = skel w) as Hsk1 by (by apply skel_alter_node).
  destruct (propagate_returns (push_fuel fuel) (shape w) (children s) v w1)
    as [w2 Hp].
  - apply push_fuel_touches.
  - intros w' c v' Hg Hc _.
    assert (sig < c < length (shape w)) as Hrange.
    { apply edge_lt; [done |]. exists (children s).
      split; [by apply shape_lookup | done]. }
    assert (length (nodes w') = length (nodes w)) as Hlen.
    { apply (f_equal length) in Hg. unfold shape in Hg.
      by rewrite !length_fmap in Hg. }
    unfold shape in Hrange. rewrite length_fmap in Hrange.
    apply IH; [by rewrite Hg | lia | lia].
  - by apply skel_shape.
  - by rewrite Hp.
Qed.

Lemma push_returns sig v w :
  wf_graph (shape w) = true -> sig < length (nodes w) ->
  is_Some (push sig v w).
Proof. intros Hwf Hlt. apply push_fuel_returns; [done | done | lia]. Qed.


(** ** A child with one parent follows that parent *)

Lemma final_app (cur : option T) a b : final cur (a ++ b) = final (final cur a) b.
Proof.
  unfold final. destruct b as [| x b _] using rev_ind.
  - rewrite app_nil_r. simpl. by destruct (last a).
  - by rewrite app_assoc, !last_snoc.
Qed.

Lemma relay_app tr (cur : option T) xs ys :
  relay tr cur (xs ++ ys)
  = relay tr cur xs ++ relay tr (final cur (relay tr cur xs)) ys.
Proof.
  revert cur. induction xs as [| x xs IH]; intros cur; simpl; [done |].
  destruct (reaction tr cur x) as [v' |]; [| apply IH].
  rewrite IH. simpl.
  assert (final cur (v' :: relay tr (Some v') xs)
          = final (Some v') (relay tr (Some v') xs)) as ->
    by apply (final_app cur [v']).
  done.
Qed.

Lemma get_lookup c w s : nodes w !! c = Some s -> get c w = value s.
Proof. intros Hc. unfold get. by rewrite Hc. Qed.

Lemma skel_transform_of w w' c :
  skel w' = skel w -> transform_of c w' = transform_of c w.
Proof.
  intros Hs. apply (f_equal (fun l => transform <$> l !! c)) in Hs.
  unfold skel in Hs. rewrite !list_lookup_fmap in Hs. unfold transform_of.
  destruct (nodes w' !! c), (nodes w !! c); simpl in *; done.
Qed.

Section Follows.

Variables (p c : nat) (tr : Transform T).

Local Abbreviation moved := (Signal.moved p c).
Local Abbreviation follows := (Signal.follows p c tr).
Local Abbreviation well := (Signal.well p c tr).
Local Abbreviation aside := (Signal.aside p c).

Lemma moved_trans w1 w2 w3 ps1 cs1 ps2 cs2 :
  moved w1 w2 ps1 cs1 -> moved w2 w3 ps2 cs2 ->
  moved w1 w3 (ps1 ++ ps2) (cs1 ++ cs2).
Proof.
  intros (Hs1 & Hg1 & l1 & Hl1 & Hp1 & Hc1) (Hs2 & Hg2 & l2 & Hl2 & Hp2 & Hc2).
  split; [congruence |]. split.
  - by rewrite Hg2, Hg1, final_app.
  - exists (l1 ++ l2). rewrite Hl2, Hl1, app_assoc, !pushed_to_app.
    by rewrite Hp1, Hp2, Hc1, Hc2.
Qed.

Lemma moved_refl w : moved w w [] [].
Proof.
  split; [done |]. split; [done |]. exists []. by rewrite app_nil_r.
Qed.

Lemma touches_moved P w w' :
  touches P w w' -> ~ P p -> ~ P c -> moved w w' [] [].
Proof.
  intros (Hs & _ & Hf & l & Hl & HF) Hp Hc.
  split; [done |]. split.
  - unfold get. by rewrite (Hf c Hc).
  - exists l. split; [done |]. split; by eapply pushed_to_away.
Qed.

Lemma follows_refl w : follows w w.
Proof. exists []. apply moved_refl. Qed.

Lemma moved_follows w w' : moved w w' [] [] -> follows w w'.
Proof. intros H. by exists []. Qed.

Lemma follows_trans w1 w2 w3 :
  follows w1 w2 -> follows w2 w3 -> follows w1 w3.
Proof.
  intros (ps1 & H1) (ps2 & H2). exists (ps1 ++ ps2).
  rewrite relay_app.
  destruct H1 as (Hs1 & Hg1 & Hr1). rewrite <- Hg1.
  eapply moved_trans; [| exact H2]. by repeat split.
Qed.

Lemma well_skel w w' : skel w' = skel w -> well w -> well w'.
Proof.
  intros Hs (Hwf & Hsp & Htr). unfold well.
  by rewrite (skel_shape _ _ Hs), (skel_transform_of _ _ _ Hs).
Qed.

Lemma well_lt w : well w -> p < c.
Proof.
  intros (Hwf & Hsp & _).
  apply (edge_lt (shape w) p c Hwf), sole_parent_edge, Hsp.
Qed.

Lemma deliver_reaction push w s v :
  nodes w !! c = Some s ->
  deliver push w c v =
    match transform s with
    | Debounce d => Some (alter_node (set_pending (Some (now w + d, v))) c w)
    | other =>
        match reaction other (value s) v with
        | Some v' => push w c v'
        | None => Some w
        end
    end.
Proof.
  intros Hc. unfold deliver. rewrite Hc.
  destruct (transform s) as [| fn | predicate | combine | | | d]; simpl; try done.
  - by destruct (predicate v).
  - by destruct (value s).
  - destruct (value s) as [last |]; [by destruct (isEqual last v) | done].
Qed.

(** The child's own step: a push on the child, a new timer, or nothing. *)
Lemma deliver_moved fuel w v w' :
  well w -> deliver (push_fuel fuel) w c v = Some w' ->
  moved w w' [] (option_list (reaction tr (get c w) v)).
Proof.
  intros Hwell Hd. pose proof (well_lt w Hwell) as Hlt.
  destruct Hwell as (Hwf & Hsp & Htr).
  unfold transform_of in Htr.
  destruct (nodes w !! c) as [s |] eqn:Hc; [| done].
  simpl in Htr. injection Htr as Htr.
  rewrite (deliver_reaction _ _ _ _ Hc), Htr in Hd.
  rewrite (get_lookup _ _ _ Hc).
  assert (forall v', push_fuel fuel w c v' = Some w' ->
            moved w w' [] [v']) as Hpush.
  { intros v' Hp.
    destruct (push_fuel_self _ _ _ _ _ _ Hwf Hc Hp)
      as (Hc' & Hs' & _ & l & Hl & HF).
    split; [done |]. split; [by rewrite (get_lookup _ _ _ Hc') |].
    eexists. split; [exact Hl |].
    change (Pushed c v' :: l ++ observers s ≫= announce c (value s) v')
      with ([Pushed c v'] ++ l ++ observers s ≫= announce c (value s) v').
    rewrite !pushed_to_app, !pushed_to_announce, !app_nil_r.
    rewrite (pushed_to_away (fun n => c < n) p l HF) by lia.
    rewrite (pushed_to_away (fun n => c < n) c l HF) by lia.
    unfold pushed_to. simpl.
    destruct (decide (c = p)); [lia |]. destruct (decide (c = c)); done. }
  destruct tr as [| fn | predicate | combine | | | d]; simpl in *.
  - injection Hd as <-. apply moved_refl.
  - by apply Hpush.
  - destruct (predicate v); [by apply Hpush |].
    injection Hd as <-. apply moved_refl.
  - destruct (value s); [by apply Hpush |].
    injection Hd as <-. apply moved_refl.
  - destruct (value s) as [last |]; [| by apply Hpush].
    destruct (isEqual last v); [| by apply Hpush].
    injection Hd as <-. apply moved_refl.
  - by apply Hpush.
  - injection Hd as <-.
    split; [by apply skel_alter_node |]. split.
    + unfold get. simpl. by rewrite list_lookup_alter_eq, Hc.
    + exists []. by rewrite app_nil_r.
Qed.

Lemma touches_aside P w w' :
  touches P w w' -> ~ P p -> ~ P c -> aside w w'.
Proof.
  intros (Hs & Hn & Hf & l & Hl & HF) Hp Hc.
  split; [done |]. split; [done |]. split; [by apply Hf |].
  exists l. split; [done |]. split; by eapply pushed_to_away.
Qed.

Lemma aside_trans w1 w2 w3 : aside w1 w2 -> aside w2 w3 -> aside w1 w3.
Proof.
  intros (Hs1 & Hn1 & Hc1 & l1 & Hl1 & Hp1 & Hd1)
         (Hs2 & Hn2 & Hc2 & l2 & Hl2 & Hp2 & Hd2).
  repeat split; try congruence.
  exists (l1 ++ l2). rewrite Hl2, Hl1, app_assoc, !pushed_to_app.
  by rewrite Hp1, Hp2, Hd1, Hd2.
Qed.

Lemma aside_moved w w' : aside w w' -> moved w w' [] [].
Proof.
  intros (Hs & _ & Hc & l & Hl & Hp & Hd). split; [done |]. split.
  - unfold get. by rewrite Hc.
  - by exists l.
Qed.

Lemma aside_notify sig prev v os w :
  aside w (foldl (notify sig prev v) w os).
Proof.
  destruct (notify_all_nodes sig prev v os w) as (Hnn & Hnt & Hnl).
  split; [unfold skel; by rewrite Hnn |]. split; [done |].
  split; [by rewrite Hnn |].
  eexists. split; [exact Hnl |]. by rewrite !pushed_to_announce.
Qed.

(** A push on the parent: the siblings before and after the child do not
    come near either of them; in between the child takes its step. *)
Lemma push_parent_split fuel w v w' :
  well w -> push_fuel fuel w p v = Some w' ->
  exists fuel' wa wb,
    aside (record (Pushed p v) (alter_node (set_value v) p w)) wa
    /\ deliver (push_fuel fuel') wa c v = Some wb
    /\ aside wb w'.
Proof.
  intros Hwell Hpush. pose proof (well_lt w Hwell) as Hlt.
  pose proof Hwell as (Hwf & Hsp & Htr).
  destruct (push_fuel_unfold _ _ _ _ _ Hpush)
    as (fuel' & s & w2 & -> & Hs & Hp & ->).
  destruct (sole_parent_split _ _ _ Hsp) as (cs1 & cs2 & Hcs & Hn1 & Hn2).
  rewrite (shape_lookup _ _ _ Hs) in Hcs. injection Hcs as Hcs.
  set (w1 := record (Pushed p v) (alter_node (set_value v) p w)) in *.
  assert (skel w1 = skel w) as Hsk1 by (by apply skel_alter_node).
  assert (forall cs w3 w4, shape w3 = shape w ->
            (forall c', c' ∈ cs -> c' ∈ children s /\ c' <> c) ->
            propagate (push_fuel fuel') cs v w3 = Some w4 ->
            aside w3 w4) as Hside.
  { intros cs w3 w4 Hsh Hin Hpr.
    pose proof (propagate_touches _ _ _ _ _ (push_fuel_touches fuel') Hpr) as Ht.
    rewrite Hsh in Ht. eapply touches_aside; [exact Ht | |].
    - intros Hx.
      pose proof (below_children_lt _ p (children s) p Hwf
                    (shape_lookup _ _ _ Hs)) as Hb.
      destruct Hx as (c' & Hc' & Hr). destruct (Hin c' Hc') as [Hc'' _].
      assert (p < p) by (apply Hb; eauto). lia.
    - intros (c' & Hc' & Hr). destruct (Hin c' Hc') as [Hc'' Hne].
      apply (not_reach_sole _ p c c' Hwf Hsp); [| done | done].
      apply (edge_lt (shape w) p c' Hwf). exists (children s).
      split; [by apply shape_lookup | done]. }
  rewrite Hcs, propagate_app in Hp.
  destruct (propagate (push_fuel fuel') cs1 v w1) as [wa |] eqn:Ha; [| done].
  simpl in Hp.
  destruct (deliver (push_fuel fuel') wa c v) as [wb |] eqn:Hb; [| done].
  assert (aside w1 wa) as Ma.
  { apply (Hside cs1); [by apply skel_shape | | done].
    intros c' Hc'. split; [rewrite Hcs; apply elem_of_app; by left |].
    intros ->. done. }
  assert (skel wb = skel wa) as Hskb.
  { apply (deliver_touches _ _ _ _ _ (push_fuel_touches fuel') Hb). }
  assert (aside wb w2) as M2.
  { apply (Hside cs2); [| | done].
    - apply skel_shape. destruct Ma as (Hska & _). congruence.
    - intros c' Hc'. split.
      + rewrite Hcs. apply elem_of_app. right. by right.
      + intros ->. done. }
  exists fuel', wa, wb. split; [done |]. split; [done |].
  eapply aside_trans; [exact M2 | apply aside_notify].
Qed.

Lemma push_parent_moved fuel w v w' :
  well w -> push_fuel fuel w p v = Some w' ->
  moved w w' [v] (option_list (reaction tr (get c w) v)).
Proof.
  intros Hwell Hpush. pose proof (well_lt w Hwell) as Hlt.
  destruct (push_parent_split _ _ _ _ Hwell Hpush)
    as (fuel' & wa & wb & Ma & Hb & M2).
  set (w1 := record (Pushed p v) (alter_node (set_value v) p w)) in *.
  assert (moved w w1 [v] []) as M1.
  { split; [by apply skel_alter_node |]. split.
    - unfold get. simpl. rewrite list_lookup_alter_ne by lia. done.
    - exists [Pushed p v]. split; [done |]. unfold pushed_to. simpl.
      destruct (decide (p = p)); [| done]. destruct (decide (p = c)); [lia | done]. }
  assert (well wa) as Hwa.
  { eapply well_skel; [| exact Hwell]. destruct Ma as (-> & _). apply M1. }
  pose proof (deliver_moved _ _ _ _ Hwa Hb) as Mb.
  assert (get c wa = get c w) as Hget.
  { destruct Ma as (_ & _ & Hc & _). unfold get. rewrite Hc.
    simpl. by rewrite list_lookup_alter_ne by lia. }
  rewrite Hget in Mb.
  pose proof (moved_trans _ _ _ _ _ _ _ M1
                (moved_trans _ _ _ _ _ _ _ (aside_moved _ _ Ma)
                   (moved_trans _ _ _ _ _ _ _ Mb (aside_moved _ _ M2)))) as M.
  simpl in M. by rewrite app_nil_r in M.
Qed.

Lemma push_parent_follows fuel w v w' :
  well w -> push_fuel fuel w p v = Some w' -> follows w w'.
Proof.
  intros Hwell Hpush. exists [v].
  pose proof (push_parent_moved _ _ _ _ Hwell Hpush) as M. simpl.
  by destruct (reaction tr (get c w) v).
Qed.

(** Any other push: by induction on the depth of the wave. *)
Lemma push_fuel_follows fuel w sig v w' :
  well w -> sig <> c -> push_fuel fuel w sig v = Some w' -> follows w w'.
Proof.
  revert w sig v w'. induction fuel as [| fuel IH]; intros w sig v w' Hwell Hne;
    [done |].
  destruct (decide (sig = p)) as [-> | Hnp]; [by apply push_parent_follows |].
  intros Hpush.
  destruct (push_fuel_unfold _ _ _ _ _ Hpush)
    as (fuel' & s & w2 & [= <-] & Hs & Hp & ->).
  set (w1 := record (Pushed sig v) (alter_node (set_value v) sig w)) in *.
  assert (moved w w1 [] []) as M1.
  { split; [by apply skel_alter_node |]. split.
    - unfold get. simpl. by rewrite list_lookup_alter_ne.
    - exists [Pushed sig v]. split; [done |]. unfold pushed_to. simpl.
      destruct (decide (sig = p)); [done |]. destruct (decide (sig = c)); done. }
  assert (forall cs w3 w4, well w3 -> c ∉ cs ->
            propagate (push_fuel fuel) cs v w3 = Some w4 -> follows w3 w4)
    as Hprop.
  { induction cs as [| c' cs IHcs]; intros w3 w4 Hw3 Hnin; simpl.
    - intros [= <-]. apply follows_refl.
    - destruct (deliver (push_fuel fuel) w3 c' v) as [w5 |] eqn:Hd; [| done].
      intros Hrest. apply not_elem_of_cons in Hnin as [Hc' Hnin].
      assert (follows w3 w5) as F1.
      { assert (c' <> c) as Hc'' by congruence.
        unfold deliver in Hd.
        destruct (nodes w3 !! c') as [s' |] eqn:Hs';
          [| injection Hd as <-; apply follows_refl].
        destruct (transform s') as [| fn | predicate | combine | | | d].
        - injection Hd as <-. apply follows_refl.
        - exact (IH _ _ _ _ Hw3 Hc'' Hd).
        - destruct (predicate v); [exact (IH _ _ _ _ Hw3 Hc'' Hd) |].
          injection Hd as <-. apply follows_refl.
        - destruct (value s'); [exact (IH _ _ _ _ Hw3 Hc'' Hd) |].
          injection Hd as <-. apply follows_refl.
        - destruct (value s') as [last |]; [| exact (IH _ _ _ _ Hw3 Hc'' Hd)].
          destruct (isEqual last v); [| exact (IH _ _ _ _ Hw3 Hc'' Hd)].
          injection Hd as <-. apply follows_refl.
        - exact (IH _ _ _ _ Hw3 Hc'' Hd).
        - injection Hd as <-. apply moved_follows.
          split; [by apply skel_alter_node |]. split.
          + unfold get. simpl. by rewrite list_lookup_alter_ne.
          + exists []. by rewrite app_nil_r. }
      eapply follows_trans; [exact F1 |]. apply IHcs; [| done | done].
      destruct F1 as (ps & Hsk & _). by eapply well_skel. }
  assert (well w1) as Hw1 by (eapply well_skel; [apply M1 | done]).
  assert (follows w1 w2) as F2.
  { apply (Hprop (children s)); [done | | done].
    intros Hin. apply Hnp.
    destruct Hwell as (_ & Hsp & _).
    apply (sole_parent_only _ p c sig Hsp). exists (children s).
    split; [by apply shape_lookup | done]. }
  eapply follows_trans; [by apply moved_follows |].
  eapply follows_trans; [exact F2 |].
  apply moved_follows, aside_moved, aside_notify.
Qed.


(** Scripts. *)

Lemma relay_one (cur : option T) v :
  relay tr cur [v] = option_list (reaction tr cur v).
Proof. simpl. by destruct (reaction tr cur v). Qed.

Lemma push_follows sig v w :
  well w -> sig < length (nodes w) -> sig <> c ->
  exists w', push sig v w = Some w' /\ follows w w'.
Proof.
  intros Hwell Hlt Hne.
  destruct (push_returns sig v w) as [w' Hp]; [apply Hwell | done |].
  exists w'. split; [done |]. by eapply push_fuel_follows.
Qed.

Lemma timer_lt sig w t : timer sig w = Some t -> sig < length (nodes w).
Proof.
  unfold timer. intros Ht. apply lookup_lt_is_Some.
  destruct (nodes w !! sig); [by eexists | done].
Qed.

Lemma step_follows w e :
  well w -> spares (length (nodes w)) c e = true ->
  exists w', step w e = Some w' /\ follows w w'.
Proof.
  intros Hwell Hsp. destruct e as [sig v | dt | sig]; simpl in *.
  - apply andb_true_iff in Hsp as [Hlt Hne].
    apply Nat.ltb_lt in Hlt. apply negb_true_iff, Nat.eqb_neq in Hne.
    by apply push_follows.
  - eexists. split; [done |]. apply moved_follows.
    split; [done |]. split; [done |]. exists []. simpl. by rewrite app_nil_r.
  - apply negb_true_iff, Nat.eqb_neq in Hsp. unfold fire.
    destruct (timer sig w) as [[deadline v] |] eqn:Ht;
      [| eexists; split; [done | apply follows_refl]].
    destruct (deadline <=? now w);
      [| eexists; split; [done | apply follows_refl]].
    set (w0 := alter_node (set_pending None) sig w).
    assert (moved w w0 [] []) as M0.
    { split; [by apply skel_alter_node |]. split.
      - unfold get. simpl. by rewrite list_lookup_alter_ne.
      - exists []. by rewrite app_nil_r. }
    assert (well w0) as Hw0 by (eapply well_skel; [apply M0 | done]).
    destruct (push_follows sig v w0 Hw0) as (w' & Hp & Hf); [| done |].
    { unfold w0. simpl. rewrite length_alter. by eapply timer_lt. }
    exists w'. split; [done |].
    eapply follows_trans; [by apply moved_follows | done].
Qed.

Lemma steps_follows es w :
  well w -> forallb (spares (length (nodes w)) c) es = true ->
  exists w', steps es w = Some w' /\ follows w w'.
Proof.
  revert w. induction es as [| e es IH]; intros w Hwell Hsp; simpl in *.
  - exists w. split; [done | apply follows_refl].
  - apply andb_true_iff in Hsp as [He Hes].
    destruct (step_follows w e Hwell He) as (w1 & -> & F1).
    assert (skel w1 = skel w) as Hsk by (destruct F1 as (? & ? & _); done).
    destruct (IH w1) as (w' & -> & F2).
    + by eapply well_skel.
    + by rewrite (skel_length _ _ Hsk).
    + exists w'. split; [done |]. by eapply follows_trans.
Qed.

Lemma pushes_parent_moved vs w :
  well w -> p < length (nodes w) ->
  exists w', steps (pushes p vs) w = Some w'
             /\ moved w w' vs (relay tr (get c w) vs).
Proof.
  revert w. induction vs as [| v vs IH]; intros w Hwell Hlt.
  - exists w. split; [done | apply moved_refl].
  - change (pushes p (v :: vs)) with (DoPush p v :: pushes p vs).
    simpl steps.
    destruct (push_returns p v w) as [w1 Hp]; [apply Hwell | done |].
    rewrite Hp. pose proof (push_parent_moved _ _ _ _ Hwell Hp) as M1.
    assert (skel w1 = skel w) as Hsk by apply M1.
    destruct (IH w1) as (w' & -> & M2).
    + by eapply well_skel.
    + by rewrite (skel_length _ _ Hsk).
    + exists w'. split; [done |].
      change (v :: vs) with ([v] ++ vs). rewrite relay_app, relay_one.
      destruct M1 as (Hs1 & Hg1 & Hr1). rewrite <- Hg1.
      eapply moved_trans; [| exact M2]. by repeat split.
Qed.

End Follows.

Lemma final_fold combine acc (vs : list T) :
  final (Some acc) (relay (Fold combine) (Some acc) vs)
  = Some (foldl combine acc vs).
Proof.
  revert acc. induction vs as [| v vs IH]; intros acc; [done |]. simpl.
  rewrite <- IH. apply (final_app (Some acc) [combine acc v]).
Qed.

Lemma relay_dropRepeats_one (cur : option T) v :
  relay DropRepeats cur [v] = if decide (cur = Some v) then [] else [v].
Proof.
  simpl. destruct cur as [last |]; simpl.
  - unfold isEqual. destruct (decide (Some last = Some v)) as [[= ->] | Hne].
    + by rewrite bool_decide_eq_true_2.
    + rewrite bool_decide_eq_false_2; [done | congruence].
  - by destruct (decide (None = Some v)).
Qed.


Lemma steps_app es1 es2 w :
  steps es1 w ≫= steps es2 = steps (es1 ++ es2) w.
Proof.
  revert w. induction es1 as [| e es1 IH]; intros w; simpl; [done |].
  destruct (step w e) as [w1 |]; [apply IH | done].
Qed.

Lemma derive_get parents tr0 initial w :
  get (snd (derive parents tr0 initial w)) (fst (derive parents tr0 initial w))
  = initial.
Proof.
  unfold derive. simpl.
  set (w1 := mkWorld (nodes w ++ [mkSignal initial [] tr0 [] None])
               (now w) (log w)).
  assert (get (length (nodes w)) w1 = initial) as H1.
  { unfold get, w1. simpl. by rewrite list_lookup_middle. }
  revert H1. generalize w1. clear w1.
  induction parents as [| q parents IH]; intros w1 H1; simpl; [done |].
  apply IH. unfold get in *. simpl.
  destruct (decide (q = length (nodes w))) as [-> | Hne].
  - rewrite list_lookup_alter_eq.
    by destruct (nodes w1 !! length (nodes w)).
  - by rewrite list_lookup_alter_ne.
Qed.

(** ** C2 *)


(** ** C3 *)


(** ** C8 *)

Lemma is_child_edge g a m : is_child g a m = true -> edge g a m.
Proof.
  unfold is_child. destruct (g !! a) as [cs |] eqn:Ha; [| done].
  intros Hin. apply bool_decide_eq_true in Hin. by exists cs.
Qed.

(** One push on a parent of a merge child. *)
Lemma push_merge fuel w q m v w' :
  wf_graph (shape w) = true ->
  is_child (shape w) q m = true ->
  transform_of m w = Some Merge ->
  push_fuel fuel w q v = Some w' ->
  skel w' = skel w
  /\ get m w' = Some v
  /\ exists l, log w' = log w ++ l /\ last (pushed_to m l) = Some v.
Proof.
  intros Hwf Hch Htr Hpush.
  pose proof (is_child_edge _ _ _ Hch) as Hedge.
  pose proof (edge_lt _ _ _ Hwf Hedge) as Hlt.
  destruct (push_fuel_unfold _ _ _ _ _ Hpush)
    as (fuel' & s & w2 & -> & Hs & Hp & ->).
  destruct Hedge as (cs & Hcs & Hin).
  rewrite (shape_lookup _ _ _ Hs) in Hcs. injection Hcs as <-.
  destruct (list_elem_of_split_r _ _ Hin) as (cs1 & cs2 & Hsplit & Hn2).
  set (w1 := record (Pushed q v) (alter_node (set_value v) q w)) in *.
  assert (touches (fun _ => True) w w1) as T1.
  { eapply touches_trans.
    - by apply (touches_alter_node _ (set_value v) q).
    - by apply touches_record. }
  rewrite Hsplit, propagate_app in Hp.
  destruct (propagate (push_fuel fuel') cs1 v w1) as [wa |] eqn:Ha; [| done].
  simpl in Hp.
  destruct (deliver (push_fuel fuel') wa m v) as [wb |] eqn:Hb; [| done].
  pose proof (propagate_touches _ _ _ _ _ (push_fuel_touches fuel') Ha) as Ta.
  eapply (touches_mono _ (fun _ => True)) in Ta; [| done].
  pose proof (touches_trans _ _ _ _ T1 Ta) as (Hska & _ & _ & la & Hla & _).
  assert (transform_of m wa = Some Merge) as Htra
    by (by rewrite (skel_transform_of _ _ _ Hska)).
  unfold transform_of in Htra.
  destruct (nodes wa !! m) as [sm |] eqn:Hm; [| done].
  simpl in Htra. injection Htra as Htra.
  unfold deliver in Hb. rewrite Hm, Htra in Hb.
  assert (shape wa = shape w) as Hsha by (by apply skel_shape).
  destruct (push_fuel_self _ _ _ _ _ _ ltac:(by rewrite Hsha) Hm Hb)
    as (Hm' & Hskb & _ & lb & Hlb & HFb).
  assert (aside m m wb w2) as M2.
  { pose proof (propagate_touches _ _ _ _ _ (push_fuel_touches fuel') Hp) as Tb.
    assert (shape wb = shape w) as Hshb by (apply skel_shape; congruence).
    rewrite Hshb in Tb.
    assert (~ (exists c', c' ∈ cs2 /\ reach (shape w) c' m)) as Hnot.
    { intros (c' & Hc' & Hr).
      destruct (wf_graph_lookup _ _ _ Hwf (shape_lookup _ _ _ Hs)) as [_ Hasc].
      rewrite Hsplit in Hasc.
      pose proof (ascending_after _ _ _ _ Hasc Hc') as Hle.
      apply (reach_le _ _ _ Hwf) in Hr.
      assert (c' = m) as -> by lia. done. }
    by eapply touches_aside. }
  pose proof (aside_trans _ _ _ _ _ M2
                (aside_notify m m q (value s) v (observers s) w2))
    as (Hsk3 & _ & Hm3 & l3 & Hl3 & _ & Hq3).
  split; [congruence |]. split.
  - unfold get. by rewrite Hm3, Hm'.
  - eexists. split.
    + rewrite Hl3, Hlb, Hla. rewrite <- !app_assoc. reflexivity.
    + change (Pushed m v :: lb ++ observers sm ≫= announce m (value sm) v)
        with ([Pushed m v] ++ lb ++ observers sm ≫= announce m (value sm) v).
      rewrite !pushed_to_app, pushed_to_announce, Hq3, !app_nil_r.
      rewrite (pushed_to_away (fun n => m < n) m lb HFb) by lia.
      rewrite app_nil_r. unfold pushed_to at 2. simpl.
      destruct (decide (m = m)); [| done]. apply last_snoc.
Qed.

Lemma interleave_returns a b vs w :
  wf_graph (shape w) = true ->
  a < length (nodes w) -> b < length (nodes w) ->
  exists w', steps (interleave a b vs) w = Some w' /\ skel w' = skel w.
Proof.
  revert w. induction vs as [| [side v] vs IH]; intros w Hwf Ha Hb.
  - by exists w.
  - simpl. set (q := if side then a else b).
    assert (q < length (nodes w)) as Hq by (unfold q; by destruct side).
    destruct (push_returns q v w Hwf Hq) as [w1 Hp]. rewrite Hp.
    pose proof (push_fuel_touches _ _ _ _ _ Hp) as (Hsk & _).
    destruct (IH w1) as (w' & Hst & Hsk').
    + by rewrite (skel_shape _ _ Hsk).
    + by rewrite (skel_length _ _ Hsk).
    + by rewrite (skel_length _ _ Hsk).
    + exists w'. split; [done | congruence].
Qed.

(** C8. Let [m] be a merge child of [a] and of [b] in a well-formed
    graph.  Pushes issued on [a] and [b] in any order return, and after
    them [m] holds the value of the push issued last, whichever parent it
    was issued on; that push delivered the value to [m], as the last of
    its deliveries to [m]. *)
Theorem merge_holds_last_push w a b m vs (side : bool) v :
  wf_graph (shape w) = true ->
  is_child (shape w) a m = true ->
  is_child (shape w) b m = true ->
  transform_of m w = Some Merge ->
  exists w1 w' l,
    steps (interleave a b vs) w = Some w1
    /\ push (if side then a else b) v w1 = Some w'
    /\ steps (interleave a b (vs ++ [(side, v)])) w = Some w'
    /\ get m w' = Some v
    /\ log w' = log w1 ++ l
    /\ last (pushed_to m l) = Some v.
Proof.
  intros Hwf Ha Hb Htr.
  assert (forall q, is_child (shape w) q m = true -> q < length (nodes w))
    as Hlt.
  { intros q Hq. apply is_child_edge in Hq as (cs & Hcs & _).
    apply lookup_lt_Some in Hcs. unfold shape in Hcs.
    by rewrite length_fmap in Hcs. }
  destruct (interleave_returns a b vs w Hwf (Hlt a Ha) (Hlt b Hb))
    as (w1 & Hst & Hsk).
  set (q := if side then a else b).
  assert (is_child (shape w) q m = true) as Hq by (unfold q; by destruct side).
  assert (shape w1 = shape w) as Hsh by (by apply skel_shape).
  destruct (push_returns q v w1) as [w' Hp].
  { by rewrite Hsh. }
  { rewrite (skel_length _ _ Hsk). by apply Hlt. }
  destruct (push_merge (length (nodes w1)) w1 q m v w') as (_ & Hg & l & Hl & Hlast).
  { by rewrite Hsh. }
  { by rewrite Hsh. }
  { by rewrite (skel_transform_of _ _ _ Hsk). }
  { exact Hp. }
  exists w1, w', l. split; [done |]. split; [done |]. split; [| done].
  unfold interleave. rewrite fmap_app. rewrite <- steps_app.
  fold (interleave a b vs). rewrite Hst. simpl. fold q. by rewrite Hp.
Qed.


(** ** C7 *)

Lemma skel_registered w w' sig fn :
  skel w' = skel w -> registered sig fn w' = registered sig fn w.
Proof.
  intros Hs. apply (f_equal (fun l => l !! sig)) in Hs. unfold skel in Hs.
  rewrite !list_lookup_fmap in Hs. unfold registered.
  destruct (nodes w' !! sig) as [s' |], (nodes w !! sig) as [s |];
    simpl in Hs; try done.
  injection Hs as _ _ ->. done.
Qed.

Lemma shape_alter_node f n w :
  (forall s, children (f s) = children s) -> shape (alter_node f n w) = shape w.
Proof.
  intros Hf. unfold shape, alter_node. simpl.
  rewrite (list_fmap_alter children f id).
  - by apply list_alter_id.
  - apply Forall_forall. intros s _. apply Hf.
Qed.

Lemma calls_announce_other sig fn prev v os :
  base.filter (fun o => callback o = fn) os = [] ->
  calls_of sig fn (os ≫= announce sig prev v) = [].
Proof.
  induction os as [| o os IH]; [done |].
  rewrite filter_cons, bind_cons, calls_of_app.
  destruct (decide (callback o = fn)) as [Heq | Hne]; [done |].
  intros Hf. rewrite (IH Hf), app_nil_r. unfold announce, calls_of.
  destruct (kind o); [| destruct prev as [u |]; [destruct (isEqual u v) |] |];
    simpl; try done;
    by destruct (decide (sig = sig /\ callback o = fn)) as [[_ ?] |].
Qed.

Lemma calls_announce_onChange sig fn u v os :
  kind <$> base.filter (fun o => callback o = fn) os = [OnChange] ->
  calls_of sig fn (os ≫= announce sig (Some u) v)
  = if isEqual u v then [] else [v].
Proof.
  induction os as [| o os IH]; [done |].
  rewrite filter_cons, bind_cons, calls_of_app.
  destruct (decide (callback o = fn)) as [Heq | Hne].
  - rewrite fmap_cons. intros [= Hk Hrest].
    apply fmap_nil_inv in Hrest.
    rewrite (calls_announce_other _ _ _ _ _ Hrest), app_nil_r.
    unfold announce. rewrite Hk. destruct (isEqual u v); [done |].
    unfold calls_of. simpl.
    by destruct (decide (sig = sig /\ callback o = fn)) as [| []].
  - intros Hf. rewrite (IH Hf).
    assert (calls_of sig fn (announce sig (Some u) v o) = []) as ->; [| done].
    unfold announce, calls_of.
    destruct (kind o); [| destruct (isEqual u v) |]; simpl; try done;
      by destruct (decide (sig = sig /\ callback o = fn)) as [[_ ?] |].
Qed.

Lemma onChange_registered w sig fn u :
  get sig w = Some u -> registered sig fn w = [] ->
  registered sig fn (onChange sig fn w) = [OnChange]
  /\ get sig (onChange sig fn w) = Some u
  /\ shape (onChange sig fn w) = shape w
  /\ log (onChange sig fn w) = log w ++ [Called sig fn u].
Proof.
  intros Hget Hreg. unfold onChange, register. rewrite Hget.
  unfold registered, get in *. simpl.
  rewrite list_lookup_alter_eq.
  destruct (nodes w !! sig) as [s |] eqn:Hs; [| done]. simpl in *.
  split; [| split; [done | split; [| done]]].
  - rewrite filter_app, fmap_app. apply fmap_nil_inv in Hreg. rewrite Hreg.
    rewrite filter_cons. simpl. by destruct (decide (fn = fn)).
  - by apply (shape_alter_node _ sig (record (Called sig fn u) w)).
Qed.

Lemma push_onChange w sig fn u v :
  wf_graph (shape w) = true -> get sig w = Some u ->
  registered sig fn w = [OnChange] ->
  exists w' l,
    push sig v w = Some w' /\ skel w' = skel w /\ get sig w' = Some v
    /\ log w' = log w ++ l
    /\ calls_of sig fn l = if isEqual u v then [] else [v].
Proof.
  intros Hwf Hget Hreg. unfold get, registered in *.
  destruct (nodes w !! sig) as [s |] eqn:Hs; [| done]. simpl in Hget.
  destruct (push_returns sig v w Hwf) as [w' Hp].
  { apply lookup_lt_is_Some. by eexists. }
  destruct (push_fuel_self _ _ _ _ _ _ Hwf Hs Hp)
    as (Hs' & Hsk & _ & l & Hl & HF).
  exists w'. eexists. split; [done |]. split; [done |].
  split; [by rewrite Hs' |]. split; [exact Hl |].
  change (Pushed sig v :: l ++ observers s ≫= announce sig (value s) v)
    with ([Pushed sig v] ++ l ++ observers s ≫= announce sig (value s) v).
  rewrite !calls_of_app.
  rewrite (calls_of_away (fun n => sig < n) sig fn l HF) by lia.
  rewrite Hget. by rewrite (calls_announce_onChange _ _ _ _ _ Hreg).
Qed.

Lemma pushes_onChange vs w sig fn u :
  wf_graph (shape w) = true -> get sig w = Some u ->
  registered sig fn w = [OnChange] ->
  exists w' l,
    steps (pushes sig vs) w = Some w' /\ log w' = log w ++ l
    /\ calls_of sig fn l = changes u vs.
Proof.
  revert w u. induction vs as [| v vs IH]; intros w u Hwf Hget Hreg.
  - exists w, []. by rewrite app_nil_r.
  - destruct (push_onChange w sig fn u v Hwf Hget Hreg)
      as (w1 & l1 & Hp & Hsk & Hg1 & Hl1 & Hc1).
    destruct (IH w1 v) as (w' & l2 & Hst & Hl2 & Hc2); [| done | |].
    { by rewrite (skel_shape _ _ Hsk). }
    { by rewrite (skel_registered _ _ _ _ Hsk). }
    exists w', (l1 ++ l2).
    change (pushes sig (v :: vs)) with (DoPush sig v :: pushes sig vs).
    simpl. rewrite Hp. split; [done |].
    split; [by rewrite Hl2, Hl1, app_assoc |].
    by rewrite calls_of_app, Hc1, Hc2.
Qed.

(** C7. On a node of a well-formed graph that holds [u], registering a
    function not yet registered there with [onChange] calls it once, at
    once, with [u].  Each later push of [v] on the node calls it (with
    [v]) exactly when [v] is not equal to the value the node held before
    the push; over the pushes [vs] the calls are [changes u vs]. *)
Theorem onChange_calls_on_change w sig fn u v vs :
  wf_graph (shape w) = true ->
  get sig w = Some u ->
  registered sig fn w = [] ->
  log (onChange sig fn w) = log w ++ [Called sig fn u]
  /\ calls_of sig fn (log (onChange sig fn w)) = calls_of sig fn (log w) ++ [u]
  /\ (exists w' l,
       push sig v (onChange sig fn w) = Some w'
       /\ log w' = log (onChange sig fn w) ++ l
       /\ calls_of sig fn l = if isEqual u v then [] else [v])
  /\ (exists w' l,
       steps (pushes sig vs) (onChange sig fn w) = Some w'
       /\ log w' = log (onChange sig fn w) ++ l
       /\ calls_of sig fn l = changes u vs).
Proof.
  intros Hwf Hget Hreg.
  destruct (onChange_registered w sig fn u Hget Hreg)
    as (Hreg1 & Hget1 & Hsh1 & Hlog1).
  assert (wf_graph (shape (onChange sig fn w)) = true) as Hwf1
    by (by rewrite Hsh1).
  split; [done |]. split; [| split].
  - rewrite Hlog1, calls_of_app. f_equal. unfold calls_of. simpl.
    by destruct (decide (sig = sig /\ fn = fn)) as [| []].
  - destruct (push_onChange _ sig fn u v Hwf1 Hget1 Hreg1)
      as (w' & l & Hp & _ & _ & Hl & Hc).
    by exists w', l.
  - by apply pushes_onChange.
Qed.

(** ** C1 *)

Lemma edge_without f g a b : edge (without f g) a b <-> edge g a b /\ b <> f.
Proof.
  unfold edge, without. rewrite list_lookup_fmap. split.
  - intros (cs & Hcs & Hin). destruct (g !! a) as [cs0 |]; [| done].
    simpl in Hcs. injection Hcs as <-.
    apply list_elem_of_filter in Hin as [Hne Hin]. split; [by exists cs0 | done].
  - intros [(cs & -> & Hin) Hne]. eexists. split; [done |].
    by apply list_elem_of_filter.
Qed.

(** From a node younger than [p], a path never enters a child of [p]
    alone. *)
Lemma reach_without g p f c n :
  wf_graph g = true -> sole_parent g p f = true -> p < c -> c <> f ->
  reach g c n -> reach (without f g) c n.
Proof.
  intros Hwf Hsp Hlt Hne Hr. revert n Hr.
  apply (rtc_ind_r (fun n => reach (without f g) c n)); [apply rtc_refl |].
  intros m n Hcm Hmn IH.
  eapply rtc_r; [exact IH |]. apply edge_without. split; [done |].
  intros ->. pose proof (sole_parent_only _ _ _ _ Hsp Hmn) as ->.
  apply (reach_le _ _ _ Hwf) in Hcm. lia.
Qed.

Lemma not_reach_without_self g p f :
  wf_graph g = true -> sole_parent g p f = true ->
  ~ reach (without f g) p f.
Proof.
  intros Hwf Hsp Hr.
  pose proof (edge_lt _ _ _ Hwf (sole_parent_edge _ _ _ Hsp)) as Hlt.
  apply rtc_inv_r in Hr as [-> | (m & _ & He)]; [lia |].
  apply edge_without in He as [_ Hne]. done.
Qed.



(** ** C4 *)

Section Debounce.

Variables (p d delayMs : nat).

Local Abbreviation armed := (Signal.well p d (Debounce delayMs)).

Local Abbreviation waits := (Signal.waits d).

Lemma waits_refl w : waits w w.
Proof.
  split; [done |]. split; [done |]. exists []. by rewrite app_nil_r.
Qed.

Lemma waits_trans w1 w2 w3 : waits w1 w2 -> waits w2 w3 -> waits w1 w3.
Proof.
  intros (Hs1 & Hd1 & l1 & Hl1 & Hp1) (Hs2 & Hd2 & l2 & Hl2 & Hp2).
  split; [congruence |]. split; [congruence |].
  exists (l1 ++ l2). rewrite Hl2, Hl1, app_assoc, pushed_to_app.
  by rewrite Hp1, Hp2.
Qed.

Lemma touches_waits P w w' : touches P w w' -> ~ P d -> waits w w'.
Proof.
  intros (Hs & _ & Hf & l & Hl & HF) Hd.
  split; [done |]. split; [by apply Hf |].
  exists l. split; [done |]. by eapply pushed_to_away.
Qed.

(** A push on the parent (re)arms the timer with the value pushed. *)
Lemma push_parent_arms fuel w v w' :
  armed w -> push_fuel fuel w p v = Some w' ->
  skel w' = skel w /\ now w' = now w
  /\ timer d w' = Some (now w + delayMs, v)
  /\ get d w' = get d w
  /\ exists l, log w' = log w ++ l /\ pushed_to d l = [].
Proof.
  intros Hwell Hpush. pose proof (well_lt _ _ _ _ Hwell) as Hlt.
  destruct (push_parent_split _ _ _ _ _ _ _ Hwell Hpush)
    as (fuel' & wa & wb & Ma & Hb & M2).
  destruct Hwell as (Hwf & Hsp & Htr).
  destruct Ma as (Hska & Hna & Hda & la & Hla & _ & Hpa).
  destruct M2 as (Hsk2 & Hn2 & Hd2 & l2 & Hl2 & _ & Hp2).
  simpl in Hda, Hna, Hla. rewrite list_lookup_alter_ne in Hda by lia.
  unfold transform_of in Htr.
  destruct (nodes w !! d) as [sd |] eqn:Hd; [| done].
  simpl in Htr. injection Htr as Htr.
  rewrite (deliver_reaction _ _ _ _ _ Hda), Htr in Hb. injection Hb as <-.
  simpl in *. rewrite list_lookup_alter_eq, Hda in Hd2. simpl in Hd2.
  assert (skel wa = skel w) as Hska'.
  { rewrite Hska. by apply skel_alter_node. }
  split.
  { rewrite Hsk2. rewrite skel_alter_node by done. done. }
  split; [congruence |].
  split; [unfold timer; rewrite Hd2; simpl; by rewrite Hna |].
  split; [unfold get; by rewrite Hd2, Hd |].
  exists ([Pushed p v] ++ la ++ l2). split.
  - rewrite Hl2, Hla. by rewrite <- !app_assoc.
  - rewrite !pushed_to_app, Hpa, Hp2. unfold pushed_to. simpl.
    destruct (decide (p = d)); [lia | done].
Qed.

(** While the timer is not due, a step of a pause leaves it armed. *)
Lemma pause_step_waits w e deadline v :
  armed w -> timer d w = Some (deadline, v) ->
  pause_step (length (nodes w)) p d e = true ->
  now w + elapsed [e] < deadline ->
  exists w', step w e = Some w' /\ waits w w'
             /\ now w' = now w + elapsed [e].
Proof.
  intros Hwell Ht He Hnow. pose proof Hwell as (Hwf & Hsp & _).
  assert (forall sig u w0, p < sig -> sig <> d -> sig < length (nodes w0) ->
            waits w w0 -> now w0 = now w ->
            exists w', push sig u w0 = Some w' /\ waits w w'
                       /\ now w' = now w) as Hpush.
  { intros sig u w0 Hlt Hne Hlen Hw0 Hn0.
    assert (shape w0 = shape w) as Hsh by (apply skel_shape, Hw0).
    destruct (push_returns sig u w0) as [w' Hp]; [by rewrite Hsh | done |].
    pose proof (push_fuel_touches _ _ _ _ _ Hp) as Tp. rewrite Hsh in Tp.
    exists w'. split; [done |]. split.
    - eapply waits_trans; [exact Hw0 |]. eapply touches_waits; [exact Tp |].
      by apply (not_reach_sole _ p).
    - destruct Tp as (_ & -> & _). done. }
  destruct e as [sig u | dt | sig]; simpl in *.
  - apply andb_true_iff in He as [He Hne]. apply andb_true_iff in He as [Hlt Hlen].
    apply Nat.ltb_lt in Hlt, Hlen. apply negb_true_iff, Nat.eqb_neq in Hne.
    destruct (Hpush sig u w Hlt Hne Hlen (waits_refl w) eq_refl)
      as (w' & Hp & Hw & Hn).
    exists w'. split; [done |]. split; [done | lia].
  - eexists. split; [done |]. split; [| simpl; lia].
    split; [done |]. split; [done |]. exists []. simpl. by rewrite app_nil_r.
  - apply Nat.ltb_lt in He. unfold fire.
    destruct (decide (sig = d)) as [-> | Hne].
    + rewrite Ht. destruct (deadline <=? now w) eqn:Hdue.
      { apply Nat.leb_le in Hdue. lia. }
      exists w. split; [done |]. split; [apply waits_refl | lia].
    + destruct (timer sig w) as [[dl u] |] eqn:Hts;
        [| exists w; split; [done |]; split; [apply waits_refl | lia]].
      destruct (dl <=? now w);
        [| exists w; split; [done |]; split; [apply waits_refl | lia]].
      destruct (Hpush sig u (alter_node (set_pending None) sig w))
        as (w' & Hp & Hw & Hn); try done.
      * simpl. rewrite length_alter. by eapply timer_lt.
      * split; [by apply skel_alter_node |]. split.
        -- simpl. by rewrite list_lookup_alter_ne.
        -- exists []. by rewrite app_nil_r.
      * exists w'. split; [done |]. split; [done | lia].
Qed.

Lemma timer_waits w w' : waits w w' -> timer d w' = timer d w.
Proof. intros (_ & Hd & _). unfold timer. by rewrite Hd. Qed.

Lemma armed_waits w w' : waits w w' -> armed w -> armed w'.
Proof. intros (Hs & _). by apply well_skel. Qed.

Lemma elapsed_cons (e : Step T) es :
  elapsed (e :: es) = elapsed [e] + elapsed es.
Proof. destruct e; simpl; lia. Qed.

Lemma pause_waits pause w deadline v :
  armed w -> timer d w = Some (deadline, v) ->
  forallb (pause_step (length (nodes w)) p d) pause = true ->
  now w + elapsed pause < deadline ->
  exists w', steps pause w = Some w' /\ waits w w'
             /\ now w' = now w + elapsed pause.
Proof.
  revert w. induction pause as [| e pause IH]; intros w Hwell Ht Hall Hnow.
  - exists w. split; [done |]. split; [apply waits_refl | simpl; lia].
  - rewrite elapsed_cons in Hnow. simpl in Hall.
    apply andb_true_iff in Hall as [He Hall].
    destruct (pause_step_waits w e deadline v Hwell Ht He) as (w1 & Hs1 & Hw1 & Hn1);
      [lia |].
    destruct (IH w1) as (w' & Hs' & Hw' & Hn').
    + by eapply armed_waits.
    + by rewrite (timer_waits _ _ Hw1).
    + destruct Hw1 as (Hsk & _). by rewrite (skel_length _ _ Hsk).
    + lia.
    + exists w'. simpl steps. rewrite Hs1. split; [done |].
      split; [by eapply waits_trans |]. rewrite elapsed_cons. lia.
Qed.

(** One round: a push on the parent and a short pause. *)
Lemma round_waits w v pause :
  armed w ->
  short_pause (length (nodes w)) p d delayMs pause = true ->
  exists w' l,
    steps (DoPush p v :: pause) w = Some w'
    /\ skel w' = skel w /\ get d w' = get d w
    /\ log w' = log w ++ l /\ pushed_to d l = []
    /\ timer d w' = Some (now w + delayMs, v)
    /\ now w' = now w + elapsed pause.
Proof.
  intros Hwell Hshort. apply andb_true_iff in Hshort as [Hall Hlt].
  apply Nat.ltb_lt in Hlt. pose proof Hwell as (Hwf & Hsp & _).
  assert (p < length (nodes w)) as Hp.
  { apply andb_true_iff in Hsp as [Hl _]. apply Nat.ltb_lt in Hl.
    unfold shape in Hl. by rewrite length_fmap in Hl. }
  destruct (push_returns p v w Hwf Hp) as [w1 Hpush].
  destruct (push_parent_arms _ _ _ _ Hwell Hpush)
    as (Hsk1 & Hn1 & Ht1 & Hg1 & l1 & Hl1 & Hp1).
  destruct (pause_waits pause w1 (now w + delayMs) v)
    as (w' & Hst & (Hsk2 & Hd2 & l2 & Hl2 & Hp2) & Hn2).
  - by eapply well_skel.
  - done.
  - by rewrite (skel_length _ _ Hsk1).
  - lia.
  - exists w', (l1 ++ l2). simpl steps. rewrite Hpush.
    split; [done |]. split; [congruence |].
    split; [unfold get in *; by rewrite Hd2 |].
    split; [by rewrite Hl2, Hl1, app_assoc |].
    split; [by rewrite pushed_to_app, Hp1, Hp2 |].
    split; [unfold timer in *; by rewrite Hd2 | lia].
Qed.

Lemma burst_cons (v : T) pause rounds :
  burst p ((v, pause) :: rounds) = (DoPush p v :: pause) ++ burst p rounds.
Proof. reflexivity. Qed.

(** A burst: only the timer of the last round is left. *)
Lemma burst_waits rounds w v pause :
  armed w ->
  forallb (fun r => short_pause (length (nodes w)) p d delayMs (snd r))
    (rounds ++ [(v, pause)]) = true ->
  exists w' l t,
    steps (burst p (rounds ++ [(v, pause)])) w = Some w'
    /\ skel w' = skel w /\ get d w' = get d w
    /\ log w' = log w ++ l /\ pushed_to d l = []
    /\ timer d w' = Some (t + delayMs, v)
    /\ now w' = t + elapsed pause.
Proof.
  revert w. induction rounds as [| [v0 pause0] rounds IH]; intros w Hwell Hall.
  - simpl in Hall. apply andb_true_iff in Hall as [Hshort _].
    destruct (round_waits w v pause Hwell Hshort)
      as (w' & l & Hst & Hsk & Hg & Hl & Hp & Ht & Hn).
    exists w', l, (now w). unfold burst. simpl. rewrite app_nil_r. done.
  - simpl in Hall. apply andb_true_iff in Hall as [Hshort Hall].
    destruct (round_waits w v0 pause0 Hwell Hshort)
      as (w1 & l1 & Hst1 & Hsk1 & Hg1 & Hl1 & Hp1 & _ & _).
    destruct (IH w1) as (w' & l2 & t & Hst2 & Hsk2 & Hg2 & Hl2 & Hp2 & Ht2 & Hn2).
    + by eapply well_skel.
    + by rewrite (skel_length _ _ Hsk1).
    + exists w', (l1 ++ l2), t.
      split.
      { rewrite <- app_comm_cons, burst_cons, <- steps_app, Hst1. exact Hst2. }
      split; [congruence |]. split; [congruence |].
      split; [by rewrite Hl2, Hl1, app_assoc |].
      split; [by rewrite pushed_to_app, Hp1, Hp2 | done].
Qed.

(** The timer fires. *)
Lemma fire_delivers w deadline v :
  armed w -> timer d w = Some (deadline, v) -> deadline <= now w ->
  exists w' l,
    fire d w = Some w' /\ log w' = log w ++ l /\ pushed_to d l = [v]
    /\ get d w' = Some v /\ timer d w' = None.
Proof.
  intros (Hwf & Hsp & _) Ht Hdue. unfold fire. rewrite Ht.
  apply Nat.leb_le in Hdue. rewrite Hdue.
  set (w0 := alter_node (set_pending None) d w).
  assert (shape w0 = shape w) as Hsh by (by apply shape_alter_node).
  pose proof (timer_lt _ _ _ Ht) as Hlt.
  destruct (push_returns d v w0) as [w' Hp].
  { by rewrite Hsh. }
  { unfold w0. simpl. by rewrite length_alter. }
  unfold timer in Ht. destruct (nodes w !! d) as [sd |] eqn:Hd; [| done].
  assert (nodes w0 !! d = Some (set_pending None sd)) as Hd0.
  { unfold w0. simpl. by rewrite list_lookup_alter_eq, Hd. }
  destruct (push_fuel_self _ _ _ _ _ _ ltac:(by rewrite Hsh) Hd0 Hp)
    as (Hd' & _ & _ & l & Hl & HF).
  exists w'. eexists. split; [done |]. split; [exact Hl |].
  split; [| split].
  - change (Pushed d v :: ?x) with ([Pushed d v] ++ x).
    rewrite !pushed_to_app, pushed_to_announce, app_nil_r.
    rewrite (pushed_to_away (fun n => d < n) d l HF) by lia.
    unfold pushed_to. simpl. by destruct (decide (d = d)).
  - unfold get. by rewrite Hd'.
  - unfold timer. by rewrite Hd'.
Qed.

End Debounce.


End Footprint.

(** ** Graphs built by programs *)

Section Growth.

Implicit Types (g : list (list nat)) (cs ps : list nat).

Lemma wf_from_intro n i g :
  (forall a cs, g !! a = Some cs ->
     Forall (fun c => i + a < c < n) cs /\ ascending cs = true) ->
  wf_from n i g = true.
Proof.
  revert i. induction g as [| cs0 g IH]; intros i Hall; [done |]. simpl.
  destruct (Hall 0 cs0 eq_refl) as [HF Hasc].
  apply andb_true_iff. split; [apply andb_true_iff; split; [| done] |].
  - apply forallb_forall. intros c Hc. apply list_elem_of_In in Hc.
    rewrite Forall_forall in HF. specialize (HF c Hc).
    apply andb_true_iff. split; apply Nat.ltb_lt; lia.
  - apply IH. intros a cs Ha. destruct (Hall (S a) cs Ha) as [HF' Hasc'].
    split; [| done]. eapply Forall_impl; [exact HF' |]. simpl. intros c. lia.
Qed.

Lemma sole_parent_from_intro i p c g :
  (forall a cs, g !! a = Some cs ->
     occurrences c cs = if decide (i + a = p) then 1 else 0) ->
  sole_parent_from i p c g = true.
Proof.
  revert i. induction g as [| cs0 g IH]; intros i Hall; [done |]. simpl.
  apply andb_true_iff. split.
  - apply Nat.eqb_eq. rewrite (Hall 0 cs0 eq_refl).
    by rewrite Nat.add_0_r.
  - apply IH. intros a cs Ha. rewrite (Hall (S a) cs Ha).
    by replace (i + S a) with (S i + a) by lia.
Qed.

Lemma ascending_snoc cs x :
  ascending cs = true -> Forall (fun c => c <= x) cs ->
  ascending (cs ++ [x]) = true.
Proof.
  induction cs as [| a cs IH]; [done |]. intros Hasc HF.
  apply Forall_cons in HF as [Ha HF].
  destruct cs as [| b cs]; simpl in *.
  - rewrite andb_true_r. by apply Nat.leb_le.
  - apply andb_true_iff in Hasc as [Hab Hasc]. rewrite Hab. simpl.
    by apply IH.
Qed.

Lemma occurrences_app c cs1 cs2 :
  occurrences c (cs1 ++ cs2) = occurrences c cs1 + occurrences c cs2.
Proof. induction cs1 as [| x cs1 IH]; simpl; [done |]. rewrite IH. lia. Qed.

Lemma grown_lookup n ps g0 a :
  foldl (fun g' p => alter (fun cs => cs ++ [n]) p g') g0 ps !! a
  = (fun cs => cs ++ replicate (occurrences a ps) n) <$> g0 !! a.
Proof.
  revert g0. induction ps as [| p ps IH]; intros g0; simpl.
  - destruct (g0 !! a); simpl; [by rewrite app_nil_r | done].
  - rewrite IH. destruct (decide (p = a)) as [-> | Hne].
    + rewrite list_lookup_alter_eq. destruct (g0 !! a); simpl; [| done].
      by rewrite <- app_assoc.
    + by rewrite list_lookup_alter_ne.
Qed.

Lemma grown_length_any n ps g : length (grown n ps g) = S (length g).
Proof.
  unfold grown.
  assert (forall g0,
            length (foldl (fun g' p => alter (fun cs => cs ++ [n]) p g') g0 ps)
            = length g0) as H.
  { induction ps as [| p ps IH]; intros g0; simpl; [done |].
    by rewrite IH, length_alter. }
  rewrite H, length_app. simpl. lia.
Qed.

Lemma occurrences_absent c ps : Forall (fun p => p < c) ps -> occurrences c ps = 0.
Proof.
  intros HF. apply occurrences_zero. intros Hin.
  rewrite Forall_forall in HF. specialize (HF c Hin). lia.
Qed.

Lemma grown_entry ps g a cs' :
  Forall (fun p => p < length g) ps ->
  grown (length g) ps g !! a = Some cs' ->
  (exists cs, g !! a = Some cs
              /\ cs' = cs ++ replicate (occurrences a ps) (length g))
  \/ (a = length g /\ cs' = []).
Proof.
  intros Hps. unfold grown. rewrite grown_lookup.
  destruct (decide (a < length g)) as [Hlt | Hge].
  - rewrite lookup_app_l by done.
    destruct (g !! a) as [cs |]; [| done]. simpl. intros [= <-].
    left. by exists cs.
  - destruct (decide (a = length g)) as [-> | Hne].
    + rewrite list_lookup_middle by done. simpl. intros [= <-]. right.
      by rewrite (occurrences_absent _ _ Hps).
    + rewrite lookup_ge_None_2; [done |]. rewrite length_app. simpl. lia.
Qed.

Lemma ascending_app_replicate cs k x :
  ascending cs = true -> Forall (fun c => c <= x) cs ->
  ascending (cs ++ replicate k x) = true.
Proof.
  revert cs. induction k as [| k IH]; intros cs Hasc HF; simpl.
  - by rewrite app_nil_r.
  - rewrite cons_middle, app_assoc. apply IH.
    + by apply ascending_snoc.
    + apply Forall_app. split; [done |]. by apply Forall_singleton.
Qed.

Lemma occurrences_replicate_ne c k n :
  c <> n -> occurrences c (replicate k n) = 0.
Proof.
  intros Hne. induction k as [| k IH]; simpl; [done |].
  rewrite IH. by destruct (decide (n = c)).
Qed.

Lemma occurrences_positive_elem a ps : occurrences a ps <> 0 -> a ∈ ps.
Proof.
  intros Hocc. destruct (decide (a ∈ ps)) as [| Hnin]; [done |].
  by apply occurrences_zero in Hnin.
Qed.

Lemma wf_grown ps g :
  wf_graph g = true -> Forall (fun p => p < length g) ps ->
  wf_graph (grown (length g) ps g) = true.
Proof.
  intros Hwf Hps. unfold wf_graph. rewrite grown_length_any.
  apply wf_from_intro. intros a cs' Ha. simpl.
  destruct (grown_entry _ _ _ _ Hps Ha) as [(cs & Hcs & ->) | [-> ->]];
    [| done].
  destruct (wf_graph_lookup _ _ _ Hwf Hcs) as [HF Hasc]. split.
  - apply Forall_app. split.
    + eapply Forall_impl; [exact HF |]. simpl. intros c. lia.
    + apply Forall_forall. intros c Hc. apply elem_of_replicate in Hc as [-> Hk].
      apply occurrences_positive_elem in Hk.
      rewrite Forall_forall in Hps. specialize (Hps a Hk). lia.
  - apply ascending_app_replicate; [done |].
    eapply Forall_impl; [exact HF |]. simpl. intros c. lia.
Qed.

Lemma sole_parent_grown_new p g :
  wf_graph g = true -> p < length g ->
  sole_parent (grown (length g) [p] g) p (length g) = true.
Proof.
  intros Hwf Hp. unfold sole_parent. rewrite grown_length_any.
  apply andb_true_iff. split; [apply Nat.ltb_lt; lia |].
  apply sole_parent_from_intro. intros a cs' Ha. simpl.
  assert (Forall (fun q => q < length g) [p]) as Hps
    by (by apply Forall_singleton).
  destruct (grown_entry _ _ _ _ Hps Ha) as [(cs & Hcs & ->) | [-> ->]].
  - rewrite occurrences_app.
    destruct (wf_graph_lookup _ _ _ Hwf Hcs) as [HF _].
    rewrite (proj2 (occurrences_zero (length g) cs)).
    + simpl. destruct (decide (p = a)) as [-> | Hne]; simpl.
      * destruct (decide (length g = length g)); [| done].
        by destruct (decide (a = a)).
      * by destruct (decide (a = p)); [congruence |].
    + intros Hin. rewrite Forall_forall in HF. specialize (HF _ Hin). lia.
  - simpl. destruct (decide (length g = p)); [lia | done].
Qed.

Lemma sole_parent_grown_old ps p c g :
  wf_graph g = true -> sole_parent g p c = true ->
  Forall (fun q => q < length g) ps ->
  sole_parent (grown (length g) ps g) p c = true.
Proof.
  intros Hwf Hsp Hps.
  pose proof (edge_lt _ _ _ Hwf (sole_parent_edge _ _ _ Hsp)) as Hlt.
  unfold sole_parent in *. rewrite grown_length_any.
  apply andb_true_iff in Hsp as [Hp Hsp]. apply Nat.ltb_lt in Hp.
  apply andb_true_iff. split; [apply Nat.ltb_lt; lia |].
  apply sole_parent_from_intro. intros a cs' Ha. simpl.
  destruct (grown_entry _ _ _ _ Hps Ha) as [(cs & Hcs & ->) | [-> ->]].
  - rewrite occurrences_app, occurrences_replicate_ne by lia.
    rewrite (sole_parent_from_lookup 0 p c g a cs Hsp Hcs). simpl. lia.
  - simpl. destruct (decide (length g = p)); [lia | done].
Qed.

Lemma is_child_grown ps g a m :
  is_child g a m = true -> is_child (grown (length g) ps g) a m = true.
Proof.
  unfold is_child, grown. rewrite grown_lookup.
  destruct (g !! a) as [cs |] eqn:Ha; [| done].
  rewrite lookup_app_l by (by eapply lookup_lt_Some). rewrite Ha. simpl.
  intros Hin. apply bool_decide_eq_true in Hin. apply bool_decide_eq_true.
  apply elem_of_app. by left.
Qed.

Lemma is_child_grown_new ps g a :
  a ∈ ps -> a < length g -> is_child (grown (length g) ps g) a (length g) = true.
Proof.
  intros Hin Hlt. unfold is_child, grown. rewrite grown_lookup.
  rewrite lookup_app_l by done.
  destruct (lookup_lt_is_Some_2 _ _ Hlt) as [cs ->]. simpl.
  apply bool_decide_eq_true. apply elem_of_app. right.
  apply elem_of_replicate. split; [done |].
  intros H0. by apply occurrences_zero in H0.
Qed.

End Growth.

Section Programs.

Context {T : Type} `{EqDecision T}.
Implicit Types (w : World T) (tr : Transform T).

Lemma shape_length w : length (shape w) = length (nodes w).
Proof. unfold shape. by rewrite length_fmap. Qed.

Lemma shape_derive ps tr initial w :
  shape (fst (derive ps tr initial w)) = grown (length (nodes w)) ps (shape w).
Proof.
  unfold derive, grown. simpl.
  set (w1 := mkWorld (nodes w ++ [mkSignal initial [] tr [] None])
               (now w) (log w)).
  assert (shape w1 = shape w ++ [[]]) as H1
    by (unfold shape, w1; simpl; by rewrite fmap_app).
  rewrite <- H1. generalize w1. clear w1 H1.
  induction ps as [| p ps IH]; intros w1; simpl; [done |].
  rewrite IH. f_equal. unfold shape, alter_node. simpl.
  apply list_fmap_alter. by apply Forall_forall.
Qed.

Lemma shape_create initial w :
  shape (fst (create initial w)) = grown (length (nodes w)) [] (shape w).
Proof. unfold create, grown, shape. simpl. by rewrite fmap_app. Qed.

Lemma shape_register k sig fn w : shape (register k sig fn w) = shape w.
Proof.
  unfold register. rewrite shape_alter_node by done.
  by destruct k, (get sig w).
Qed.

Lemma step_skel w e w' : step w e = Some w' -> skel w' = skel w.
Proof.
  destruct e as [sig v | dt | sig]; simpl.
  - intros Hp. apply (push_fuel_touches _ _ _ _ _ Hp).
  - by intros [= <-].
  - unfold fire. destruct (timer sig w) as [[deadline v] |]; [| by intros [= <-]].
    destruct (deadline <=? now w); [| by intros [= <-]].
    intros Hp. pose proof (push_fuel_touches _ _ _ _ _ Hp) as (Hs & _).
    rewrite Hs. by apply skel_alter_node.
Qed.

Lemma transform_of_derive ps tr initial w c :
  transform_of c (fst (derive ps tr initial w))
  = if decide (c = length (nodes w)) then Some tr else transform_of c w.
Proof.
  unfold derive. simpl.
  set (w1 := mkWorld (nodes w ++ [mkSignal initial [] tr [] None])
               (now w) (log w)).
  assert (transform_of c w1
          = if decide (c = length (nodes w)) then Some tr else transform_of c w)
    as H1.
  { unfold transform_of, w1. simpl.
    destruct (decide (c = length (nodes w))) as [-> | Hne].
    - by rewrite list_lookup_middle.
    - destruct (decide (c < length (nodes w))).
      + by rewrite lookup_app_l.
      + rewrite !lookup_ge_None_2; [done | lia |].
        rewrite length_app. simpl. lia. }
  rewrite <- H1. generalize w1. clear w1 H1.
  induction ps as [| p ps IH]; intros w1; simpl; [done |].
  rewrite IH. unfold transform_of. simpl.
  destruct (decide (p = c)) as [-> | Hne].
  - rewrite list_lookup_alter_eq. by destruct (nodes w1 !! c).
  - by rewrite list_lookup_alter_ne.
Qed.

Lemma transform_of_register k sig fn w c :
  transform_of c (register k sig fn w) = transform_of c w.
Proof.
  unfold register, transform_of. simpl.
  assert (forall w1, nodes w1 = nodes w ->
            transform <$> alter (add_observer (mkObserver k fn)) sig (nodes w1) !! c
            = transform <$> nodes w !! c) as H1.
  { intros w1 ->. destruct (decide (sig = c)) as [-> | Hne].
    - rewrite list_lookup_alter_eq. by destruct (nodes w !! c).
    - by rewrite list_lookup_alter_ne. }
  apply H1. by destruct k, (get sig w).
Qed.

(** Every operation keeps the graph well formed, keeps a child of one
    parent a child of that parent alone, keeps the children of a node its
    children, and keeps the transform of an existing node. *)
Lemma perform_keeps w o w' :
  wf_graph (shape w) = true -> perform w o = Some w' ->
  wf_graph (shape w') = true
  /\ (forall p c, sole_parent (shape w) p c = true ->
        sole_parent (shape w') p c = true)
  /\ (forall a m, is_child (shape w) a m = true ->
        is_child (shape w') a m = true)
  /\ (forall c, c < length (nodes w) -> transform_of c w' = transform_of c w).
Proof.
  intros Hwf. destruct o as [initial | ps tr initial | k sig fn | e]; unfold perform.
  - intros Hp. assert (w' = fst (create initial w)) as -> by congruence.
    rewrite shape_create, <- shape_length.
    split; [by apply wf_grown |]. split; [| split].
    + intros p c Hsp. by apply sole_parent_grown_old.
    + intros a m. apply is_child_grown.
    + intros c Hc. rewrite shape_length in Hc.
      pose proof (transform_of_derive [] Source initial w c) as Ht.
      destruct (decide (c = length (nodes w))); [lia | exact Ht].
  - destruct (forallb _ ps) eqn:Hps; [| done]. intros Hp.
    assert (w' = fst (derive ps tr initial w)) as -> by congruence.
    assert (Forall (fun p => p < length (shape w)) ps) as HF.
    { apply Forall_forall. intros q Hq. rewrite forallb_forall in Hps.
      apply list_elem_of_In, Hps, Nat.ltb_lt in Hq. by rewrite shape_length. }
    rewrite shape_derive, <- shape_length.
    split; [by apply wf_grown |]. split; [| split].
    + intros p c Hsp. by apply sole_parent_grown_old.
    + intros a m. apply is_child_grown.
    + intros c Hc. rewrite shape_length in Hc. rewrite transform_of_derive.
      destruct (decide (c = length (nodes w))); [lia | done].
  - intros Hp. assert (w' = register k sig fn w) as -> by congruence.
    rewrite shape_register.
    split; [done |]. split; [done |]. split; [done |].
    intros c _. apply transform_of_register.
  - intros Hst. pose proof (step_skel _ _ _ Hst) as Hsk.
    rewrite (skel_shape _ _ Hsk).
    split; [done |]. split; [done |]. split; [done |].
    intros c _. by apply skel_transform_of.
Qed.

Lemma perform_length w o w' :
  perform w o = Some w' -> length (nodes w) <= length (nodes w').
Proof.
  intros Hp.
  assert (length (shape w) <= length (shape w')) as H1; [| by rewrite !shape_length in H1].
  destruct o as [initial | ps tr initial | k sig fn | e]; unfold perform in Hp.
  - assert (w' = fst (create initial w)) as -> by congruence.
    rewrite shape_create, grown_length_any. lia.
  - destruct (forallb _ ps); [| done].
    assert (w' = fst (derive ps tr initial w)) as -> by congruence.
    rewrite shape_derive, grown_length_any. lia.
  - assert (w' = register k sig fn w) as -> by congruence.
    by rewrite shape_register.
  - by rewrite (skel_shape _ _ (step_skel _ _ _ Hp)).
Qed.

Lemma program_keeps os w w' :
  wf_graph (shape w) = true -> program os w = Some w' ->
  wf_graph (shape w') = true
  /\ (forall p c, sole_parent (shape w) p c = true ->
        sole_parent (shape w') p c = true)
  /\ (forall a m, is_child (shape w) a m = true ->
        is_child (shape w') a m = true)
  /\ (forall c, c < length (nodes w) -> transform_of c w' = transform_of c w).
Proof.
  revert w. induction os as [| o os IH]; intros w Hwf; simpl.
  - by intros [= <-].
  - destruct (perform w o) as [w1 |] eqn:Hp; [| done]. intros Hrest.
    destruct (perform_keeps _ _ _ Hwf Hp) as (Hwf1 & Hsp1 & Hch1 & Htr1).
    destruct (IH w1 Hwf1 Hrest) as (Hwf' & Hsp' & Hch' & Htr').
    pose proof (perform_length _ _ _ Hp) as Hlen.
    split; [done |]. split; [| split].
    + intros p c Hsp. by apply Hsp', Hsp1.
    + intros a m Hch. by apply Hch', Hch1.
    + intros c Hc. rewrite Htr' by lia. by apply Htr1.
Qed.

(** Every graph that a program builds from nothing is well formed. *)
Lemma built_wf os w : program os empty = Some w -> wf_graph (shape w) = true.
Proof. intros Hp. by apply (program_keeps os empty w). Qed.

(** A child derived from one parent is a child of that parent alone, with
    the transform of its combinator, and stays so whatever the program does
    afterwards. *)
Lemma derived_child_stays os p tr initial w w' :
  wf_graph (shape w) = true -> p < length (nodes w) ->
  program os (fst (derive [p] tr initial w)) = Some w' ->
  snd (derive [p] tr initial w) = length (nodes w)
  /\ wf_graph (shape w') = true
  /\ sole_parent (shape w') p (length (nodes w)) = true
  /\ transform_of (length (nodes w)) w' = Some tr.
Proof.
  intros Hwf Hp Hprog. split; [done |].
  assert (wf_graph (shape (fst (derive [p] tr initial w))) = true) as Hwf1.
  { rewrite shape_derive, <- shape_length. apply wf_grown; [done |].
    apply Forall_singleton. by rewrite shape_length. }
  destruct (program_keeps _ _ _ Hwf1 Hprog) as (Hwf' & Hsp' & _ & Htr').
  split; [done |]. split.
  - apply Hsp'. rewrite shape_derive, <- shape_length.
    apply sole_parent_grown_new; [done | by rewrite shape_length].
  - rewrite Htr'.
    + rewrite transform_of_derive. by destruct (decide (_ = _)).
    + assert (length (shape (fst (derive [p] tr initial w)))
              = S (length (shape w))) as Hlen
        by (by rewrite shape_derive, <- shape_length, grown_length_any).
      rewrite !shape_length in Hlen. lia.
Qed.

(** Likewise a merge child is a child of both its parents, and stays
    so. *)
Lemma merged_child_stays os a b w w' :
  wf_graph (shape w) = true -> a < length (nodes w) -> b < length (nodes w) ->
  program os (fst (merge a b w)) = Some w' ->
  snd (merge a b w) = length (nodes w)
  /\ wf_graph (shape w') = true
  /\ is_child (shape w') a (length (nodes w)) = true
  /\ is_child (shape w') b (length (nodes w)) = true
  /\ transform_of (length (nodes w)) w' = Some Merge.
Proof.
  intros Hwf Ha Hb Hprog. split; [done |]. unfold merge in *.
  assert (Forall (fun q => q < length (shape w)) [a; b]) as HF.
  { rewrite shape_length. by repeat constructor. }
  assert (wf_graph (shape (fst (derive [a; b] Merge None w))) = true) as Hwf1.
  { rewrite shape_derive, <- shape_length. by apply wf_grown. }
  destruct (program_keeps _ _ _ Hwf1 Hprog) as (Hwf' & _ & Hch' & Htr').
  split; [done |]. split; [| split].
  - apply Hch'. rewrite shape_derive, <- shape_length.
    apply is_child_grown_new; [left | by rewrite shape_length].
  - apply Hch'. rewrite shape_derive, <- shape_length.
    apply is_child_grown_new; [right; left | by rewrite shape_length].
  - rewrite Htr'.
    + rewrite transform_of_derive. by destruct (decide (_ = _)).
    + assert (length (shape (fst (derive [a; b] Merge None w)))
              = S (length (shape w))) as Hlen
        by (by rewrite shape_derive, <- shape_length, grown_length_any).
      rewrite !shape_length in Hlen. lia.
Qed.

End Programs.

(** ** The test suite, and the theorems at its graphs *)

Open Scope Z_scope.

(** filter: "should block children from being updated". *)
Example filter_blocks_children :
  steps [DoPush 0%nat 9; DoPush 0%nat 3] filter_map_graph
    ≫= (fun w => Some (get 1 w, get 2 w))
  = Some (Some 9, Some 10).
Proof. vm_compute. reflexivity. Qed.

(** fold: "should reduce values on a signal". *)
Example fold_spells_hello :
  steps (pushes 0 ["h"; "e"; "l"; "l"; "o"]%string) hello_graph
    ≫= get 1%nat
  = Some "hello"%string.
Proof. vm_compute. reflexivity. Qed.

(** dropRepeats: the counter reads 1, 2 and 3 at the three check points. *)
Example dropRepeats_counts_runs :
  steps (pushes 0 [1; 1; 1]) counted_repeats_graph ≫= get 2%nat = Some 1
  /\ steps (pushes 0 [1; 1; 1; 2; 2; 2]) counted_repeats_graph ≫= get 2%nat
     = Some 2
  /\ steps (pushes 0 [1; 1; 1; 2; 2; 2; 3]) counted_repeats_graph
       ≫= (fun w => Some (get 2 w, pushed_to 1 (log w)))
     = Some (Some 3, [1; 2; 3]).
Proof. vm_compute. repeat split. Qed.

(** debounce: one call of the observer, with 5, the counter reading 1 by
    then. *)
Example debounce_keeps_last :
  steps (pushes 0 [1; 2; 3; 4; 5] ++ [DoElapse 20; DoFire 1%nat])
    debounce_graph
    ≫= (fun w => Some (calls_of 1 0 (log w), get 2 w, pushed_to 1 (log w)))
  = Some ([5], Some 1, [5]).
Proof. vm_compute. reflexivity. Qed.

(** merge: the five checks of "should merge values from two signals". *)
Example merge_follows_both :
  steps (interleave 0 1 [(true, 1)]) merge_graph ≫= get 2%nat = Some 1
  /\ steps (interleave 0 1 [(true, 1); (true, 2)]) merge_graph ≫= get 2%nat
     = Some 2
  /\ steps (interleave 0 1 [(true, 1); (true, 2); (false, 3)]) merge_graph
       ≫= get 2%nat = Some 3
  /\ steps (interleave 0 1 [(true, 1); (true, 2); (false, 3); (true, 4)])
       merge_graph ≫= get 2%nat = Some 4
  /\ steps (interleave 0 1
              [(true, 1); (true, 2); (false, 3); (true, 4); (false, 5)])
       merge_graph ≫= get 2%nat = Some 5.
Proof. vm_compute. repeat split. Qed.

(** onValue, onChange, onNext on [create(3)]. *)
Example observers_of_three :
  (push 0 1 (onValue 0 0 three) ≫= fun w => Some (calls_of 0 0 (log w)))
    = Some [3; 1]
  /\ (push 0 3 (onChange 0 0 three) ≫= fun w => Some (calls_of 0 0 (log w)))
     = Some [3]
  /\ (push 0 1 (onChange 0 0 three) ≫= fun w => Some (calls_of 0 0 (log w)))
     = Some [3; 1]
  /\ calls_of 0 0 (log (onNext 0 0 three)) = []
  /\ (push 0 1 (onNext 0 0 three) ≫= fun w => Some (calls_of 0 0 (log w)))
     = Some [1].
Proof. vm_compute. repeat split. Qed.






(** [onChange_calls_on_change] at [create(3)] and the push of 3. *)
Lemma onChange_calls_on_change_witness :
  wf_graph (shape three) = true
  /\ get 0 three = Some 3
  /\ registered 0 0 three = []
  /\ calls_of 0 0 (log (onChange 0 0 three)) = calls_of 0 0 (log three) ++ [3]
  /\ exists w' l,
       push 0 3 (onChange 0 0 three) = Some w'
       /\ log w' = log (onChange 0 0 three) ++ l
       /\ calls_of 0 0 l = [].
Proof.
  split; [reflexivity |]. split; [reflexivity |]. split; [reflexivity |].
  pose proof (onChange_calls_on_change three 0 0 3 3 [3; 1]
                eq_refl eq_refl eq_refl) as (_ & Hreg & Hpush & _).
  split; [exact Hreg | exact Hpush].
Defined.

(** [merge_holds_last_push] at the graph of the merge test. *)
Lemma merge_holds_last_push_witness :
  wf_graph (shape merge_graph) = true
  /\ is_child (shape merge_graph) 0 2 = true
  /\ is_child (shape merge_graph) 1 2 = true
  /\ exists w1 w' l,
       steps (interleave 0 1 [(true, 1); (true, 2); (false, 3); (true, 4)])
         merge_graph = Some w1
       /\ push 1 5 w1 = Some w'
       /\ steps (interleave 0 1
                   ([(true, 1); (true, 2); (false, 3); (true, 4)]
                      ++ [(false, 5)])) merge_graph = Some w'
       /\ get 2 w' = Some 5
       /\ log w' = log w1 ++ l
       /\ last (pushed_to 2 l) = Some 5.
Proof.
  split; [reflexivity |]. split; [reflexivity |]. split; [reflexivity |].
  exact (merge_holds_last_push merge_graph 0 1 2
           [(true, 1); (true, 2); (false, 3); (true, 4)] false 5
           eq_refl eq_refl eq_refl eq_refl).
Defined.

End SignalSpec.

(* ===================================================================== *)
(** * Part VI: properties of the other methods of Task                   *)
(* ===================================================================== *)

Module MethodsSpec.
Import Task Methods.

Section Laws.

Context {E V P : Type}.
Variable noop : P -> Act E V P.

Implicit Types (e x : Reason E) (fin : option (Reason E)).

Local Abbreviation Calls W := (list (Call (E:=E) (P:=P) W)).
Local Abbreviation SinksOf W := (Sinks (E:=E) (V:=V) (P:=P) W).
Local Abbreviation Tasks W := (TaskOf (E:=E) (V:=V) (P:=P) W).

(** ** Sources that only talk to their sinks *)

Lemma play_map {W B} (f : W -> B) (cs : Calls W) fin
    (sinks : SinksOf B) :
  play cs fin
    (mkSinks (reject sinks) (fun val => resolve sinks (f val))
       (progress sinks))
  = play (call_map f <$> cs) fin sinks.
Proof.
  induction cs as [| c cs IH]; [done |].
  rewrite fmap_cons. simpl. rewrite IH. by destruct c.
Qed.

Lemma play_progress {W} (f : P -> W) (cs : Calls W) fin
    (sinks : SinksOf W) :
  play cs fin
    (mkSinks (reject sinks) (resolve sinks)
       (Some (fun val => resolve sinks (f val))))
  = play (call_progress f <$> cs) fin sinks.
Proof.
  induction cs as [| c cs IH]; [done |].
  rewrite fmap_cons. simpl. rewrite IH. by destruct c.
Qed.

(** Sinks that record one event per call. *)
Lemma exec_play_recording {W} (o : Call W -> Obs E V P) (sinks : SinksOf W)
    (cs : Calls W) fin (w : World E V P) :
  (forall c, say sinks c = Emit (o c)) ->
  exec (play cs fin sinks) w
  = (match fin with Some x => Threw x | None => Normal end,
     mkWorld (trace w ++ (o <$> cs)) (queue w) (uncaught w)).
Proof.
  intros Hsay. revert w. induction cs as [| c cs IH]; intros w.
  - simpl. rewrite app_nil_r. destruct w. by destruct fin.
  - simpl. rewrite Hsay. simpl. rewrite IH. simpl.
    by rewrite <- app_assoc.
Qed.

(** What a watching caller has recorded when a scripted source is
    through: its calls, and the thrown value as a rejection. *)
Lemma settle_scripted_probe (cs : Calls V) fin n :
  settle (S n) (run (scripted cs fin) probe)
  = Some (mkWorld (record_of cs fin) [] []).
Proof.
  unfold settle, record_of. simpl. unfold turn. simpl.
  rewrite (exec_play_recording heard probe cs fin (mkWorld [] [] []))
    by (by intros []).
  destruct fin; simpl; destruct n; simpl; by rewrite ?app_nil_r.
Qed.

(** ** map *)

(** X1. Mapping over a source that makes the calls [cs] (and then
    returns or throws) is, one scheduler turn later, the source that makes
    the same calls with every resolved value mapped: rejections, progress
    reports and a thrown value pass unchanged.  A literal mapping stands
    for the constant function.  This holds for all sinks, throwing ones
    included. *)
Theorem map_maps_resolved_values {W B} (cs : Calls W) fin
    (mapping : TaskMapping W B) (sinks : SinksOf B) n :
  settle (S n) (run (map (scripted cs fin) mapping) sinks)
  = settle n (run (scripted (call_map (mappingFn mapping) <$> cs) fin) sinks)
  /\ (forall (b : B) (v : W), mappingFn (MapValue b) v = b)
  /\ (success (scripted cs fin) mapping : Tasks B)
     = map (scripted cs fin) mapping.
Proof.
  split; [| by split].
  unfold settle. simpl. unfold turn. simpl.
  by rewrite <- (play_map (mappingFn mapping) cs fin sinks).
Qed.

(** X2. [map] composes: for every source, the computation of
    [t.map(f).map(g)] is a run of [t.map(g . f)], so the two differ by one
    scheduler turn; and the computation of [t.map(x => x)] is a run of
    [t]. *)
Theorem map_fuses {W B C} (t : Tasks W) (f : W -> B) (g : B -> C)
    (sinks : SinksOf C) (sinks' : SinksOf W) n :
  _fn (map (map t (MapFn f)) (MapFn g)) sinks
    = run (map t (MapFn (fun v => g (f v)))) sinks
  /\ settle (S n) (run (map (map t (MapFn f)) (MapFn g)) sinks)
     = settle n (run (map t (MapFn (fun v => g (f v)))) sinks)
  /\ _fn (map t (MapFn (fun v => v))) sinks' = run t sinks'
  /\ settle (S n) (run (map t (MapFn (fun v => v))) sinks')
     = settle n (run t sinks').
Proof.
  split; [reflexivity |]. split; [reflexivity |].
  destruct sinks' as [rej res prg]. split; reflexivity.
Qed.

(** ** recover and default *)

Lemma settle_recover_scripted (f : Reason E -> V) (cs : Calls V) fin n :
  settle (S (S n)) (run (recover (scripted cs fin) (MapFn f)) probe)
  = Some (mkWorld (recovered f cs fin) [] []).
Proof.
  unfold settle. simpl. unfold turn. simpl.
  rewrite (exec_play_recording (fun c => heard (call_recover f c)) _ cs fin
             (mkWorld [] [] [])) by (by intros []).
  unfold recovered. rewrite <- list_fmap_compose.
  destruct fin; simpl; destruct n; simpl; by rewrite ?app_nil_r.
Qed.

Lemma recovered_no_reject (f : Reason E -> V) (cs : Calls V) fin :
  forallb (fun o => negb (is_rejected o)) (recovered f cs fin) = true.
Proof.
  unfold recovered. rewrite forallb_app. apply andb_true_iff. split.
  - induction cs as [| c cs IH]; [done |].
    rewrite !fmap_cons. cbn [forallb]. rewrite IH. by destruct c.
  - by destruct fin.
Qed.

(** X3. A recovered task never rejects.  For a source that makes the calls
    [cs] and then returns or throws, a watching caller of
    [source.recover(mapping)] records each rejection with [err] as a
    resolve with the mapping of [err], a thrown value [x] as a resolve with
    the mapping of [x], and the other calls as they are; no reject is
    among them and nothing reaches the scheduler. *)
Theorem recover_never_rejects (mapping : TaskMapping (Reason E) V)
    (cs : Calls V) fin n :
  settle (S (S n)) (run (recover (scripted cs fin) mapping) probe)
  = Some (mkWorld (recovered (mappingFn mapping) cs fin) [] [])
  /\ forallb (fun o => negb (is_rejected o))
       (recovered (mappingFn mapping) cs fin) = true.
Proof.
  split; [| apply recovered_no_reject].
  destruct mapping as [f | v]; apply settle_recover_scripted.
Qed.

(** X4. [default] is validation's fallback: for every value [v],
    predicate and fallback [val], a watching caller of
    [of(v).validate(predicate).default(val)] records exactly one call, a
    resolve, with [v] when it passes the predicate and with [val] when it
    does not; and for a source that makes the calls [cs], [default]
    turns every rejection, and a thrown value, into a resolve with
    [val]. *)
Theorem default_resolves_with_fallback (isEqual : V -> V -> bool)
    (predicate : TaskPredicate V) (v val : V) (cs : Calls V) fin n :
  settle (E:=E) (P:=P) (3 + n)
    (run (default (lift (validate isEqual (Task.of_ v) predicate)) val) probe)
  = Some (mkWorld
            [Resolved (if filterFn isEqual predicate v then v else val)]
            [] [])
  /\ settle (2 + n) (run (default (scripted cs fin) val) probe)
     = Some (mkWorld (recovered (fun _ => val) cs fin) [] []).
Proof.
  split; [| apply settle_recover_scripted].
  unfold settle. simpl. unfold turn. simpl.
  destruct predicate as [f | l]; simpl.
  - destruct (f v); simpl; by destruct n.
  - destruct (isEqual l v); simpl; by destruct n.
Qed.

(** ** progress *)

Lemma progress_gone {W} (f : P -> W) (cs : Calls W) :
  forallb (fun c => match c with SayProgress _ => false | _ => true end)
    (call_progress f <$> cs) = true.
Proof.
  induction cs as [| c cs IH]; [done |].
  rewrite fmap_cons. cbn [forallb]. rewrite IH. by destruct c.
Qed.

(** X5. [progress] maps the progress branch to the resolution branch: for
    a source that makes the calls [cs], [source.progress(mapping)] is, one
    scheduler turn later, the source in which every progress report [p]
    is a resolve with the mapping of [p]; rejections and resolves pass
    unchanged, and the progress sink of the caller is never called.  So a
    source that reports progress and then resolves makes its caller's
    resolve sink run more than once. *)
Theorem progress_becomes_resolve {W} (mapping : TaskMapping P W)
    (cs : Calls W) fin (sinks : SinksOf W) n :
  settle (S n) (run (progress_ (scripted cs fin) mapping) sinks)
  = settle n
      (run (scripted (call_progress (mappingFn mapping) <$> cs) fin) sinks)
  /\ forallb (fun c => match c with SayProgress _ => false | _ => true end)
       (call_progress (mappingFn mapping) <$> cs) = true.
Proof.
  split; [| apply progress_gone].
  unfold settle. simpl. unfold turn. simpl.
  by rewrite <- (play_progress (mappingFn mapping) cs fin sinks).
Qed.

(** ** concat, join, chain, ap *)

(** X6. [concat] runs the second task after the first and discards the
    value of the first: after [of(a)] it is the second task, two scheduler
    turns later, whatever the second task and the sinks are.  After a first
    task that uses only its reject sink (it rejects, or throws) the second
    task is never started: the outcome is that of the first task alone. *)
Theorem concat_runs_second_after_success {W B} (a : W) (task : Tasks B)
    (k : (Reason E -> Act E V P) -> Act E V P) (sinks : SinksOf B) n :
  settle (2 + n) (run (concat noop (of_ a) task) sinks)
  = settle n (run task sinks)
  /\ settle (S n) (run (concat noop (rejecting (W:=W) k) task) sinks)
     = settle n (run (rejecting k) sinks).
Proof. split; reflexivity. Qed.

(** X7. [join] removes one level of nesting: a task that resolves with the
    task [t] is, joined, the task [t] two scheduler turns later, for every
    [t] and all sinks; a task that only rejects or throws is, joined, the
    same failure one turn later. *)
Theorem join_unwraps {B} (t : Tasks B)
    (k : (Reason E -> Act E V P) -> Act E V P) (sinks : SinksOf B) n :
  settle (2 + n) (run (join noop (of_ t)) sinks) = settle n (run t sinks)
  /\ settle (S n) (run (join noop (rejecting k)) sinks)
     = settle n (run (rejecting k) sinks).
Proof. split; reflexivity. Qed.

(** X8. [chain] obeys the left identity of a monad up to scheduling:
    [of(v).chain(f)] is the task [f(v)] three scheduler turns later, for
    every [f] and all sinks.  On a source that only rejects or throws the
    function is never applied: the outcome is that failure, two turns
    later. *)
Theorem chain_left_identity {W B} (v : W) (f : W -> Tasks B)
    (k : (Reason E -> Act E V P) -> Act E V P) (sinks : SinksOf B) n :
  settle (3 + n) (run (chain noop (of_ v) f) sinks) = settle n (run (f v) sinks)
  /\ settle (2 + n) (run (chain noop (rejecting k) f) sinks)
     = settle n (run (rejecting k) sinks).
Proof. split; reflexivity. Qed.

(** X9. [chain] is associative on a resolved source: for every fuel,
    [of(v).chain(f).chain(g)] and [of(v).chain(x => f(x).chain(g))] leave
    the host in the same state, for all [f], [g] and sinks. *)
Theorem chain_associative_at_of {W B C} (v : W) (f : W -> Tasks B)
    (g : B -> Tasks C) (sinks : SinksOf C) fuel :
  settle fuel (run (chain noop (chain noop (of_ v) f) g) sinks)
  = settle fuel (run (chain noop (of_ v) (fun y => chain noop (f y) g)) sinks).
Proof.
  do 5 (destruct fuel as [| fuel]; [reflexivity |]). reflexivity.
Qed.

(** X10. [ap] applies a resolved function to a resolved value:
    [of(f).ap(of(a))] is [of(f(a))] four scheduler turns later, for all
    sinks; if the task of the function only rejects or throws, that is the
    outcome, and if the task of the argument does, that is the outcome
    too. *)
Theorem ap_applies {X B} (f : X -> B) (a : X) (task : Tasks X)
    (k : (Reason E -> Act E V P) -> Act E V P) (sinks : SinksOf B) n :
  settle (4 + n) (run (ap noop (of_ f) (of_ a)) sinks)
  = settle n (run (of_ (f a)) sinks)
  /\ settle (2 + n) (run (ap noop (rejecting k) task) sinks)
     = settle n (run (rejecting k) sinks)
  /\ settle (4 + n) (run (ap noop (of_ f) (rejecting k)) sinks)
     = settle n (run (rejecting k) sinks).
Proof. repeat split. Qed.

(** ** recover and a throwing resolve sink *)

(** X11. [recover] hands the source a reject sink that calls the caller's
    resolve sink, and [run] hands what the computation throws to the
    reject sink.  So when the caller's resolve sink throws [x] on the value
    of [of(v).recover(mapping)], it is called again, with the mapping of
    [x]; the caller's reject sink is not called. *)
Theorem recover_reenters_resolve (v : V) (mapping : TaskMapping (Reason E) V)
    (sinks : SinksOf V) (w : World E V P) :
  exists inner,
    _fn (recover (of_ v) mapping) sinks = run (of_ v) inner
    /\ (forall e, reject inner e = resolve sinks (mappingFn mapping e))
    /\ exec (started (of_ v) inner) w =
         match exec (resolve sinks v) w with
         | (Normal, w') => (Normal, w')
         | (Threw x, w1) => exec (resolve sinks (mappingFn mapping x)) w1
         end.
Proof.
  destruct mapping as [f | val]; eexists; repeat split.
Qed.

(** ** filter on a source that calls more than once *)

Lemma filtered_passes (test : V -> bool) (cs : Calls V) fin :
  forallb (passes test) (record_of (call_filter test <$> cs) fin) = true.
Proof.
  unfold record_of. rewrite forallb_app. apply andb_true_iff. split.
  - induction cs as [| c cs IH]; [done |].
    rewrite !fmap_cons. cbn [forallb]. rewrite IH.
    destruct c as [e | v | p]; simpl; try done.
    by destruct (test v) eqn:Hv; simpl; rewrite ?Hv.
  - by destruct fin.
Qed.

(** X12. The resolve sink of a filtered task only ever sees values that
    pass the test.  For a source that makes the calls [cs] (and then
    returns or throws), a watching caller of [source.filter(predicate)]
    records each resolve with a failing value as a reject with [null] and
    every other call as it is; every value it records as resolved passes
    the test. *)
Theorem filter_passes_only (isEqual : V -> V -> bool)
    (predicate : TaskPredicate V) (cs : Calls V) fin n :
  settle (2 + n)
    (Task.run (filter isEqual (lower (scripted cs fin)) predicate) Task.probe)
  = Some (mkWorld
            (record_of (call_filter (filterFn isEqual predicate) <$> cs) fin)
            [] [])
  /\ forallb (passes (filterFn isEqual predicate))
       (record_of (call_filter (filterFn isEqual predicate) <$> cs) fin)
     = true.
Proof.
  split; [| apply filtered_passes].
  unfold settle, record_of. simpl. unfold turn. simpl.
  rewrite (exec_play_recording
             (fun c => heard (call_filter (filterFn isEqual predicate) c))
             _ cs fin (mkWorld [] [] [])).
  - rewrite <- list_fmap_compose.
    destruct fin; simpl; destruct n; simpl; by rewrite ?app_nil_r.
  - intros [e | v | p]; simpl; try done.
    destruct predicate as [f | l]; simpl.
    + by destruct (f v).
    + by destruct (isEqual l v).
Qed.

(** ** Progress of the first task *)

Lemma play_progress_dropped {W} (ps : list P) (rest : Calls W) fin
    (inner : SinksOf W) (w : World E V P) :
  progress inner = Some noop -> (forall p, noop p = Skip) ->
  exec (play ((SayProgress <$> ps) ++ rest) fin inner) w
  = exec (play rest fin inner) w.
Proof.
  intros Hprg Hnoop. induction ps as [| p ps IH]; [done |].
  rewrite fmap_cons. simpl. rewrite Hprg, Hnoop. simpl. exact IH.
Qed.

(** X13. [join] and [concat] give the first task [noop] as its progress
    sink, and [chain] goes through [join].  With a [noop] that does
    nothing, the progress reports of the first task are dropped: a first
    task that reports [ps] and then resolves with [a] gives, under
    [concat] and under [chain], what [of(a)] gives, whatever the caller's
    progress sink is. *)
Theorem first_task_progress_is_dropped {W B} (ps : list P) (a : W)
    (task : Tasks B) (f : W -> Tasks B) (sinks : SinksOf B) n :
  (forall p, noop p = Skip) ->
  settle (2 + n)
    (run (concat noop
            (scripted ((SayProgress <$> ps) ++ [SayResolve a]) None) task)
       sinks)
  = settle n (run task sinks)
  /\ settle (3 + n)
       (run (chain noop
               (scripted ((SayProgress <$> ps) ++ [SayResolve a]) None) f)
          sinks)
     = settle n (run (f a) sinks).
Proof.
  intros Hnoop. split.
  - unfold settle. simpl. unfold turn. simpl.
    by rewrite play_progress_dropped.
  - unfold settle. simpl. unfold turn. simpl.
    by rewrite play_progress_dropped.
Qed.

End Laws.

(** [first_task_progress_is_dropped] at two progress reports and a caller
    that only watches: nothing of the reports is recorded. *)
Lemma first_task_progress_is_dropped_witness :
  settle 3
    (run (concat (fun _ => Skip)
            (scripted ((SayProgress <$> [1; 2]%Z) ++ [SayResolve 3%Z]) None)
            (of_ 4%Z))
       (probe (E:=Z) (P:=Z)))
  = Some (Task.mkWorld [Resolved 4%Z] [] []).
Proof.
  exact (proj1 (first_task_progress_is_dropped (fun _ => Skip) [1; 2]%Z 3%Z
                  (of_ 4%Z) of_ probe 1 (fun _ => eq_refl))).
Defined.

End MethodsSpec.

(* ===================================================================== *)
(** * Part VII: more properties of Signal                                *)
(* ===================================================================== *)

Module SignalMore.
Import Signal SignalGraphs SignalSpec.
Local Open Scope nat_scope.

Section Children.

Context {T : Type} `{EqDecision T}.
Implicit Types (w : World T) (v u : T) (vs : list T).

Lemma relay_map (fn : T -> T) (cur : option T) vs :
  relay (Map fn) cur vs = fn <$> vs.
Proof.
  revert cur. induction vs as [| v vs IH]; intros cur; [done |].
  simpl. by rewrite IH.
Qed.

Lemma relay_filter (predicate : T -> bool) (cur : option T) vs :
  relay (Filter predicate) cur vs = List.filter predicate vs.
Proof.
  revert cur. induction vs as [| v vs IH]; intros cur; [done |].
  simpl. destruct (predicate v); by rewrite IH.
Qed.

Lemma sole_parent_lt w p c :
  sole_parent (shape w) p c = true -> p < length (nodes w).
Proof.
  intros Hsp. apply andb_true_iff in Hsp as [Hlt _].
  apply Nat.ltb_lt in Hlt. unfold shape in Hlt. by rewrite length_fmap in Hlt.
Qed.

(** X14. Let [c] be a map child of [p] alone, with function [fn], in a
    well-formed graph.  Whatever the program and the host do next, as long
    as nobody pushes on [c] itself, the run returns and the values
    delivered to [c] are exactly [fn] of the values delivered to [p], in
    order and one for one; after pushes on [p] that end with [v] the child
    holds [fn v].  A new map child holds nothing. *)
Theorem map_child_maps_every_delivery w p c (fn : T -> T) es vs v :
  wf_graph (shape w) = true ->
  sole_parent (shape w) p c = true ->
  transform_of c w = Some (Map fn) ->
  forallb (spares (length (nodes w)) c) es = true ->
  (exists w' l,
      steps es w = Some w' /\ log w' = log w ++ l
      /\ pushed_to c l = fn <$> pushed_to p l)
  /\ (exists w',
      steps (pushes p (vs ++ [v])) w = Some w' /\ get c w' = Some (fn v))
  /\ (forall w0 sig, get (snd (map sig fn w0)) (fst (map sig fn w0)) = None).
Proof.
  intros Hwf Hsp Htr Hes.
  assert (well p c (Map fn) w) as Hwell by done.
  split; [| split].
  - destruct (steps_follows p c _ es w Hwell Hes)
      as (w' & Hst & ps & _ & _ & l & Hl & Hp & Hc).
    exists w', l. split; [done |]. split; [done |].
    by rewrite Hc, Hp, relay_map.
  - destruct (pushes_parent_moved p c _ (vs ++ [v]) w Hwell
                (sole_parent_lt _ _ _ Hsp)) as (w' & Hst & _ & Hg & _).
    exists w'. split; [done |].
    rewrite Hg, relay_map, fmap_app. unfold final. simpl.
    by rewrite last_snoc.
  - intros w0 sig. apply derive_get.
Qed.

(** X15. Let [c] be a filter child of [p] alone in a well-formed graph.
    Whatever the program and the host do next, as long as nobody pushes on
    [c] itself, the run returns and the values delivered to [c] are exactly
    those of the values delivered to [p] that pass the predicate, in order:
    no value that fails it is ever delivered.  After the values [vs] are
    pushed on [p] the child holds the last of them that passes, or what it
    held before when none does. *)
Theorem filter_child_keeps_accepted w p c (predicate : T -> bool) es vs :
  wf_graph (shape w) = true ->
  sole_parent (shape w) p c = true ->
  transform_of c w = Some (Filter predicate) ->
  forallb (spares (length (nodes w)) c) es = true ->
  (exists w' l,
      steps es w = Some w' /\ log w' = log w ++ l
      /\ pushed_to c l = List.filter predicate (pushed_to p l)
      /\ forallb predicate (pushed_to c l) = true)
  /\ (exists w',
      steps (pushes p vs) w = Some w'
      /\ get c w' = final (get c w) (List.filter predicate vs)).
Proof.
  intros Hwf Hsp Htr Hes.
  assert (well p c (Filter predicate) w) as Hwell by done.
  split.
  - destruct (steps_follows p c _ es w Hwell Hes)
      as (w' & Hst & ps & _ & _ & l & Hl & Hp & Hc).
    exists w', l. split; [done |]. split; [done |].
    rewrite Hc, Hp, relay_filter. split; [done |].
    apply forallb_forall. intros x Hx. by apply List.filter_In in Hx as [_ ?].
  - destruct (pushes_parent_moved p c _ vs w Hwell
                (sole_parent_lt _ _ _ Hsp)) as (w' & Hst & _ & Hg & _).
    exists w'. split; [done |]. by rewrite Hg, relay_filter.
Qed.

End Children.

Section Observers.

Context {T : Type} `{EqDecision T}.
Implicit Types (w : World T) (v u : T) (vs : list T) (k : ObserverKind).

(** An observer registered with [onValue] or [onNext] alone is called on
    every push. *)
Lemma calls_announce_always sig fn k (prev : option T) v os :
  k <> OnChange ->
  kind <$> base.filter (fun o => callback o = fn) os = [k] ->
  calls_of sig fn (os ≫= announce sig prev v) = [v].
Proof.
  intros Hk. induction os as [| o os IH]; [done |].
  rewrite filter_cons, bind_cons, calls_of_app.
  destruct (decide (callback o = fn)) as [Heq | Hne].
  - rewrite fmap_cons. intros [= Hko Hrest].
    apply fmap_nil_inv in Hrest.
    rewrite (calls_announce_other _ _ _ _ _ Hrest), app_nil_r.
    unfold announce. rewrite Hko. unfold calls_of.
    destruct k; try done; simpl;
      by destruct (decide (sig = sig /\ callback o = fn)) as [| []].
  - intros Hf. rewrite (IH Hf).
    assert (calls_of sig fn (announce sig prev v o) = []) as ->; [| done].
    unfold announce, calls_of.
    destruct (kind o); [| destruct prev as [u |]; [destruct (isEqual u v) |] |];
      simpl; try done;
      by destruct (decide (sig = sig /\ callback o = fn)) as [[_ ?] |].
Qed.

Lemma register_registered k w sig fn :
  sig < length (nodes w) -> registered sig fn w = [] ->
  registered sig fn (register k sig fn w) = [k]
  /\ shape (register k sig fn w) = shape w
  /\ length (nodes (register k sig fn w)) = length (nodes w)
  /\ log (register k sig fn w)
     = log w ++ match k, get sig w with
                | OnNext, _ | _, None => []
                | _, Some u => [Called sig fn u]
                end.
Proof.
  intros Hlt Hreg. destruct (lookup_lt_is_Some_2 _ _ Hlt) as [s Hs].
  unfold register.
  set (w1 := match k, get sig w with
             | OnValue, Some v => record (Called sig fn v) w
             | OnChange, Some v => record (Called sig fn v) w
             | _, _ => w
             end).
  assert (nodes w1 = nodes w) as Hn
    by (unfold w1; by destruct k, (get sig w)).
  assert (log w1 = log w ++ match k, get sig w with
                            | OnNext, _ | _, None => []
                            | _, Some u => [Called sig fn u]
                            end) as Hl
    by (unfold w1; destruct k, (get sig w); simpl; by rewrite ?app_nil_r).
  unfold registered in *. rewrite Hs in Hreg. apply fmap_nil_inv in Hreg.
  split; [| split; [| split]].
  - unfold alter_node. simpl. rewrite Hn, list_lookup_alter_eq, Hs. simpl.
    rewrite filter_app, fmap_app, Hreg, filter_cons. simpl.
    by destruct (decide (fn = fn)).
  - rewrite (shape_alter_node _ sig w1) by done. unfold shape. by rewrite Hn.
  - unfold alter_node. simpl. by rewrite length_alter, Hn.
  - exact Hl.
Qed.

Lemma push_observed k w sig fn v :
  k <> OnChange ->
  wf_graph (shape w) = true -> sig < length (nodes w) ->
  registered sig fn w = [k] ->
  exists w' l,
    push sig v w = Some w' /\ skel w' = skel w
    /\ log w' = log w ++ l /\ calls_of sig fn l = [v].
Proof.
  intros Hk Hwf Hlt Hreg. destruct (lookup_lt_is_Some_2 _ _ Hlt) as [s Hs].
  unfold registered in Hreg. rewrite Hs in Hreg.
  destruct (push_returns sig v w Hwf Hlt) as [w' Hp].
  destruct (push_fuel_self _ _ _ _ _ _ Hwf Hs Hp)
    as (_ & Hsk & _ & l & Hl & HF).
  exists w'. eexists. split; [done |]. split; [done |]. split; [exact Hl |].
  change (Pushed sig v :: l ++ observers s ≫= announce sig (value s) v)
    with ([Pushed sig v] ++ l ++ observers s ≫= announce sig (value s) v).
  rewrite !calls_of_app.
  rewrite (calls_of_away (fun n => sig < n) sig fn l HF) by lia.
  by rewrite (calls_announce_always _ _ k _ _ _ Hk Hreg).
Qed.

Lemma pushes_observed k vs w sig fn :
  k <> OnChange ->
  wf_graph (shape w) = true -> sig < length (nodes w) ->
  registered sig fn w = [k] ->
  exists w' l,
    steps (pushes sig vs) w = Some w' /\ log w' = log w ++ l
    /\ calls_of sig fn l = vs.
Proof.
  intros Hk. revert w. induction vs as [| v vs IH]; intros w Hwf Hlt Hreg.
  - exists w, []. by rewrite app_nil_r.
  - destruct (push_observed k w sig fn v Hk Hwf Hlt Hreg)
      as (w1 & l1 & Hp & Hsk & Hl1 & Hc1).
    destruct (IH w1) as (w' & l2 & Hst & Hl2 & Hc2).
    { by rewrite (skel_shape _ _ Hsk). }
    { by rewrite (skel_length _ _ Hsk). }
    { by rewrite (skel_registered _ _ _ _ Hsk). }
    exists w', (l1 ++ l2).
    change (pushes sig (v :: vs)) with (DoPush sig v :: pushes sig vs).
    simpl. rewrite Hp. split; [done |].
    split; [by rewrite Hl2, Hl1, app_assoc |].
    by rewrite calls_of_app, Hc1, Hc2.
Qed.

(** X16. On a node of a well-formed graph, registering a function not yet
    registered there with [onValue] calls it at once with the value of the
    node when the node holds one, and not at all when it holds none.  Each
    later push on the node calls it once with the pushed value, repeated
    values included: over the pushes [vs] the calls are [vs]. *)
Theorem onValue_calls_on_every_push w sig fn vs :
  wf_graph (shape w) = true ->
  sig < length (nodes w) ->
  registered sig fn w = [] ->
  calls_of sig fn (log (onValue sig fn w))
  = calls_of sig fn (log w)
      ++ match get sig w with Some u => [u] | None => [] end
  /\ exists w' l,
       steps (pushes sig vs) (onValue sig fn w) = Some w'
       /\ log w' = log (onValue sig fn w) ++ l
       /\ calls_of sig fn l = vs.
Proof.
  intros Hwf Hlt Hreg.
  destruct (register_registered OnValue w sig fn Hlt Hreg)
    as (Hreg1 & Hsh1 & Hlen1 & Hlog1).
  split.
  - unfold onValue. rewrite Hlog1, calls_of_app. f_equal.
    destruct (get sig w) as [u |]; [| done]. unfold calls_of. simpl.
    by destruct (decide (sig = sig /\ fn = fn)) as [| []].
  - apply (pushes_observed OnValue); [done | | |].
    + unfold onValue. by rewrite Hsh1.
    + unfold onValue. by rewrite Hlen1.
    + exact Hreg1.
Qed.

(** X17. On a node of a well-formed graph, registering a function not yet
    registered there with [onNext] calls nothing, whether or not the node
    holds a value.  Each later push on the node calls it once with the
    pushed value: over the pushes [vs] the calls are [vs]. *)
Theorem onNext_calls_on_later_pushes w sig fn vs :
  wf_graph (shape w) = true ->
  sig < length (nodes w) ->
  registered sig fn w = [] ->
  log (onNext sig fn w) = log w
  /\ exists w' l,
       steps (pushes sig vs) (onNext sig fn w) = Some w'
       /\ log w' = log (onNext sig fn w) ++ l
       /\ calls_of sig fn l = vs.
Proof.
  intros Hwf Hlt Hreg.
  destruct (register_registered OnNext w sig fn Hlt Hreg)
    as (Hreg1 & Hsh1 & Hlen1 & Hlog1).
  split.
  - unfold onNext. by rewrite Hlog1, app_nil_r.
  - apply (pushes_observed OnNext); [done | | |].
    + unfold onNext. by rewrite Hsh1.
    + unfold onNext. by rewrite Hlen1.
    + exact Hreg1.
Qed.

End Observers.

Local Open Scope Z_scope.

(** [map_child_maps_every_delivery] at the graph of the map test: the push
    of 1 leaves 6 on the child. *)
Lemma map_child_maps_every_delivery_witness :
  wf_graph (shape map_graph) = true
  /\ sole_parent (shape map_graph) 0 1 = true
  /\ exists w',
       steps (pushes 0 [1]) map_graph = Some w' /\ get 1 w' = Some 6.
Proof.
  split; [reflexivity |]. split; [reflexivity |].
  exact (proj1 (proj2
    (map_child_maps_every_delivery map_graph 0 1 (fun val => val + 5) [] [] 1
       eq_refl eq_refl eq_refl eq_refl))).
Defined.

(** [filter_child_keeps_accepted] at the graph of the filter test: after
    1, 8 and 3 the child holds 8. *)
Lemma filter_child_keeps_accepted_witness :
  wf_graph (shape filter_graph) = true
  /\ sole_parent (shape filter_graph) 0 1 = true
  /\ exists w',
       steps (pushes 0 [1; 8; 3]) filter_graph = Some w'
       /\ get 1 w' = Some 8.
Proof.
  split; [reflexivity |]. split; [reflexivity |].
  exact (proj2
    (filter_child_keeps_accepted filter_graph 0 1 (fun val => 5 <? val)
       [] [1; 8; 3] eq_refl eq_refl eq_refl eq_refl)).
Defined.

(** [onValue_calls_on_every_push] at [create(3)] and the push of 1: the
    function is called with 3, then with 1. *)
Lemma onValue_calls_on_every_push_witness :
  wf_graph (shape three) = true
  /\ registered 0 0 three = []
  /\ calls_of 0 0 (log (onValue 0 0 three)) = [3]
  /\ exists w' l,
       steps (pushes 0 [1]) (onValue 0 0 three) = Some w'
       /\ log w' = log (onValue 0 0 three) ++ l
       /\ calls_of 0 0 l = [1].
Proof.
  split; [reflexivity |]. split; [reflexivity |].
  exact (onValue_calls_on_every_push three 0 0 [1]
           eq_refl (le_n 1) eq_refl).
Defined.

(** [onNext_calls_on_later_pushes] at [create(3)] and the push of 1: no
    call at registration, one call with 1. *)
Lemma onNext_calls_on_later_pushes_witness :
  wf_graph (shape three) = true
  /\ registered 0 0 three = []
  /\ log (onNext 0 0 three) = log three
  /\ exists w' l,
       steps (pushes 0 [1]) (onNext 0 0 three) = Some w'
       /\ log w' = log (onNext 0 0 three) ++ l
       /\ calls_of 0 0 l = [1].
Proof.
  split; [reflexivity |]. split; [reflexivity |].
  exact (onNext_calls_on_later_pushes three 0 0 [1]
           eq_refl (le_n 1) eq_refl).
Defined.

End SignalMore.
